(** * NanoBook: the chat / upload / reset client and its retrieval boundary

    A shallow embedding of the NanoBook front end
    ([app/Utils/types.ts], [app/(services)/api.ts], [app/page.tsx]) together
    with the two parts of the retrieval back end that the front end talks
    about but whose code is not among the sources (the chunker and the vector
    collection); those two are modelled from the specification and marked so.

    Asynchronous handlers are written as explicit state passing over a
    [World]: the React state of the page, the browser's localStorage and
    console, and the network (the log of requests sent and the collection
    held by the back end).  Whatever the outside world decides (the outcome
    of a [fetch], the clock, the random source ids, the order in which
    concurrent uploads complete, the answer to [window.confirm]) is an
    explicit argument. *)

From Stdlib Require Import ZArith Ascii List Permutation Lia.
From Stdlib Require String.
From stdpp Require Import base strings list gmap pretty.

Set Warnings "-register-all".

(** ** JSON values, as produced by [JSON.stringify] and [response.json()] *)

Module Json.

Inductive json : Type :=
| JNull
| JBool (b : bool)
| JNumber (n : Z)
| JString (s : string)
| JArray (items : list json)
| JObject (members : list (string * json)).

(** Property read [o.key]: [None] stands for [undefined]. *)
Fixpoint assoc (key : string) (members : list (string * json)) : option json :=
  match members with
  | [] => None
  | (k, v) :: rest => if String.eqb k key then Some v else assoc key rest
  end.

Definition get (key : string) (j : json) : option json :=
  match j with
  | JObject members => assoc key members
  | _ => None
  end.

Definition keys (j : json) : list string :=
  match j with
  | JObject members => map fst members
  | _ => []
  end.

Definition is_string (o : option json) : bool :=
  match o with Some (JString _) => true | _ => false end.

Definition is_number (o : option json) : bool :=
  match o with Some (JNumber _) => true | _ => false end.

End Json.
Import Json.

(** ** [app/Utils/types.ts] *)

Module Types.

(** [enum Role { USER = 'user', model = 'model' }] *)
Inductive Role : Type := USER | model.

Definition Role_eqb (a b : Role) : bool :=
  match a, b with
  | USER, USER | model, model => true
  | _, _ => false
  end.

Record Message : Type := mkMessage {
  msg_id : string;
  msg_role : Role;
  msg_content : string;
  msg_timestamp : Z
}.

Record Source : Type := mkSource {
  src_id : string;
  src_name : string;
  src_content : string;
  src_type : string;
  src_size : Z;
  src_uploadDate : Z
}.

(** [role: 'user' | 'model'] is a string on the wire; [parts: string[]]. *)
Record MessageHistoryItem : Type := mkMessageHistoryItem {
  role : string;
  parts : list string
}.

Record ChatRequest : Type := mkChatRequest {
  user_query : string;
  history : list MessageHistoryItem
}.

Record ChatResponse : Type := mkChatResponse {
  response : string
}.

(** [filename?: string]: an optional member. *)
Record UploadResponse : Type := mkUploadResponse {
  message : string;
  filename : option string
}.

(** The browser's [File], as far as the page reads it, with its content. *)
Record File : Type := mkFile {
  file_name : string;
  file_type : string;
  file_size : Z;
  file_text : string
}.

(** The members each interface puts on the wire. *)
Definition MessageHistoryItem_json (h : MessageHistoryItem) : json :=
  JObject [("role", JString (role h)); ("parts", JArray (map JString (parts h)))].

Definition ChatRequest_json (p : ChatRequest) : json :=
  JObject [("user_query", JString (user_query p));
           ("history", JArray (map MessageHistoryItem_json (history p)))].

Definition ChatResponse_json (r : ChatResponse) : json :=
  JObject [("response", JString (response r))].

Definition UploadResponse_json (r : UploadResponse) : json :=
  JObject (("message", JString (message r)) ::
           match filename r with
           | Some f => [("filename", JString f)]
           | None => []
           end).

Definition Role_json (r : Role) : json :=
  JString (match r with USER => "user" | model => "model" end).

(** A reply body read at the type the client declares for it,
    [interface ChatResponse { response: string }].  TypeScript checks
    nothing when the body arrives: whatever other members the body has stay
    in place, and a body without a string [response] is not of the declared
    type. *)
Definition as_ChatResponse (j : json) : option ChatResponse :=
  match get "response" j with
  | Some (JString s) => Some {| response := s |}
  | _ => None
  end.

(** A reply body read at [interface UploadResponse { message: string;
    filename?: string }]. *)
Definition as_UploadResponse (j : json) : option UploadResponse :=
  match get "message" j, get "filename" j with
  | Some (JString m), Some (JString f) => Some {| message := m; filename := Some f |}
  | Some (JString m), None => Some {| message := m; filename := None |}
  | _, _ => None
  end.

Definition Message_json (m : Message) : json :=
  JObject [("id", JString (msg_id m)); ("role", Role_json (msg_role m));
           ("content", JString (msg_content m));
           ("timestamp", JNumber (msg_timestamp m))].

Definition Source_json (s : Source) : json :=
  JObject [("id", JString (src_id s)); ("name", JString (src_name s));
           ("content", JString (src_content s)); ("type", JString (src_type s));
           ("size", JNumber (src_size s));
           ("uploadDate", JNumber (src_uploadDate s))].

End Types.
Import Types.

(** ** [app/(services)/api.ts] *)

Module Api.

(** A thrown [Error], by its message. *)
Inductive Result (T : Type) : Type :=
| Ok (value : T)
| Throw (error : string).
Arguments Ok {T} value.
Arguments Throw {T} error.

Definition is_ok {T : Type} (r : Result T) : bool :=
  match r with Ok _ => true | Throw _ => false end.

(** What a [fetch] followed by the optional [response.json()] can do:
    [fetch] itself rejects, or a response arrives with its [ok] flag and
    [statusText]; reading the body either rejects or gives a value of the
    type the client declares for it. *)
Inductive FetchOutcome (T : Type) : Type :=
| Rejected (error : string)
| Responded (ok : bool) (statusText : string) (body : Result T).
Arguments Rejected {T} error.
Arguments Responded {T} ok statusText body.

Inductive Body : Type :=
| NoBody
| JsonBody (j : json)
| FormData (fields : list (string * File)).

Record Request : Type := mkRequest {
  method : string;
  url : string;
  headers : list (string * string);
  body : Body
}.

(** [process.env.NEXT_PUBLIC_BASE_URL || 'http://localhost:5000'] *)
Definition BASE_URL (env : option string) : string :=
  match env with
  | Some "" | None => "http://localhost:5000"
  | Some u => u
  end.

Definition sendChatMessage_request (env : option string) (payload : ChatRequest) : Request :=
  {| method := "POST";
     url := BASE_URL env +:+ "/chat";
     headers := [("Content-Type", "application/json")];
     body := JsonBody (ChatRequest_json payload) |}.

Definition sendChatMessage (out : FetchOutcome ChatResponse) : Result ChatResponse :=
  match out with
  | Rejected e => Throw e
  | Responded ok statusText body =>
      if negb ok then Throw ("Chat API error: " +:+ statusText) else body
  end.

Definition uploadDocument_request (env : option string) (file : File) : Request :=
  {| method := "POST";
     url := BASE_URL env +:+ "/upload";
     headers := [];
     body := FormData [("file", file)] |}.

Definition uploadDocument (out : FetchOutcome UploadResponse) : Result UploadResponse :=
  match out with
  | Rejected e => Throw e
  | Responded ok statusText body =>
      if negb ok then Throw ("Upload API error: " +:+ statusText) else body
  end.

(** [sendChatMessage] over the body as the server sent it:
    [return response.json()] hands back the parsed body itself, and the
    return type [Promise<ChatResponse>] is a declaration that nothing
    enforces. *)
Definition sendChatMessage_json (out : FetchOutcome json) : Result json :=
  match out with
  | Rejected e => Throw e
  | Responded ok statusText body =>
      if negb ok then Throw ("Chat API error: " +:+ statusText) else body
  end.

(** [uploadDocument] over the body as the server sent it. *)
Definition uploadDocument_json (out : FetchOutcome json) : Result json :=
  match out with
  | Rejected e => Throw e
  | Responded ok statusText body =>
      if negb ok then Throw ("Upload API error: " +:+ statusText) else body
  end.

Definition resetSources_request (env : option string) : Request :=
  {| method := "DELETE";
     url := BASE_URL env +:+ "/reset";
     headers := [];
     body := NoBody |}.

(** [Promise<void>]: the body of the response is never read. *)
Definition resetSources (out : FetchOutcome unit) : Result unit :=
  match out with
  | Rejected e => Throw e
  | Responded ok statusText _ =>
      if negb ok then Throw ("Reset API error: " +:+ statusText) else Ok tt
  end.

End Api.
Import Api.

(** ** The chunker (back end; not among the sources) *)

Module Chunker.

Section Splitter.
Context {A : Type}.
Variables chunk_size chunk_overlap : nat.
(** Modelled from the spec: the boundary the splitter would like to cut at
    inside a window of at most [chunk_size] characters (0 when it has no
    preference); the boundaries themselves are left open here. *)
Variable prefer : list A -> nat.

(** Modelled from the spec: a Chunk of section 3, a contiguous slice of the
    text of a document with its sequence index and the offset it starts at
    (the code that builds chunks is missing from the sources). *)
Record Chunk : Type := mkChunk {
  chunk_index : nat;
  chunk_start : nat;
  chunk_text : list A
}.

(** Modelled from the spec: where the next chunk ends (section 3), the
    preferred boundary when it leaves room for the overlap and lies inside
    the window, a hard character cut at the end of the window otherwise; the
    splitter is missing from the sources. *)
Definition cut (window : list A) : nat :=
  let p := prefer window in
  if (chunk_overlap <? p) && (p <=? length window) then p else length window.

(** Modelled from the spec: the characters of [text] from offset [from] up
    to offset [to], the "contiguous slice" a Chunk of section 3 is. *)
Definition slice (text : list A) (from to : nat) : list A :=
  take (to - from) (drop from text).

(** Modelled from the spec: the offset one past the last character of a
    chunk, the end of its "character offset range in the source"
    (section 3). *)
Definition chunk_end (c : Chunk) : nat := chunk_start c + length (chunk_text c).

(** Modelled from the spec: the Chunker of section 4.1 (the splitter that
    [ingest.py] and [app.py] configure is missing from the sources).
    [start] is where the next window opens, [chunk_overlap] characters
    before [covered], the end of the chunk before it.  A chunk is a window
    of at most [chunk_size] characters cut at a preferred boundary or else
    by a hard character cut; once what is left of the text fits in one
    window, the last chunk holds the characters no chunk has covered yet
    (section 8: 1200 characters at 500/100 give chunks of 500, 500 and 300
    characters; "boundary chunks may share less"). *)
Fixpoint split_from (text : list A) (fuel index start covered : nat) : list Chunk :=
  match fuel with
  | 0 => []
  | S fuel' =>
      if length text <=? covered then []
      else if length text - start <=? chunk_size then
        [mkChunk index covered (slice text covered (length text))]
      else
        let n := cut (slice text start (start + chunk_size)) in
        mkChunk index start (slice text start (start + n))
        :: split_from text fuel' (S index) (start + n - chunk_overlap) (start + n)
  end.

(** Modelled from the spec: the entry point of the missing Chunker; an
    empty text yields zero chunks and a text of at most [chunk_size]
    characters exactly one (section 4.1).  Every chunk covers at least one
    more character, so the length of the text is fuel enough. *)
Definition split_text (text : list A) : list Chunk :=
  split_from text (length text) 0 0 0.

(** Modelled from the spec: the number of characters a chunk shares with
    the chunk before it, from its own start to the end of that chunk. *)
Definition overlap_with (prev c : Chunk) : nat := chunk_end prev - chunk_start c.

(** Modelled from the spec: the chunks after [prev], each "minus" the
    overlap it shares with the one before it (section 8; the reassembly is
    not in the sources either). *)
Fixpoint reassemble_after (prev : Chunk) (chunks : list Chunk) : list A :=
  match chunks with
  | [] => []
  | c :: cs => drop (overlap_with prev c) (chunk_text c) ++ reassemble_after c cs
  end.

(** Modelled from the spec: "reassembled minus overlaps" (section 8): the
    first chunk whole, then every later chunk minus its overlap. *)
Definition reassemble (chunks : list Chunk) : list A :=
  match chunks with
  | [] => []
  | c :: cs => chunk_text c ++ reassemble_after c cs
  end.

(** Modelled from the spec: what section 3 asks of one chunk of [text]: it
    is the slice of the text at its offset range, it lies inside the text,
    and it holds at least one and at most [chunk_size] characters. *)
Definition is_chunk_of (text : list A) (c : Chunk) : Prop :=
  chunk_text c = slice text (chunk_start c) (chunk_end c)
  /\ chunk_end c <= length text
  /\ 0 < length (chunk_text c)
  /\ length (chunk_text c) <= chunk_size.

(** Modelled from the spec: the overlap invariant of sections 3 and 8 on
    the chunks that follow [prev]: sequence indices count up, a chunk starts
    no later than the one before it ends (no gaps), the two share at most
    [chunk_overlap] characters and exactly that many unless the chunk is the
    last one ("boundary chunks may share less"), and the shared characters
    are the same text at the end of the one and at the start of the
    other. *)
Fixpoint overlap_invariant (prev : Chunk) (chunks : list Chunk) : Prop :=
  match chunks with
  | [] => True
  | c :: cs =>
      chunk_index c = S (chunk_index prev)
      /\ chunk_start c <= chunk_end prev
      /\ overlap_with prev c <= chunk_overlap
      /\ (cs <> [] -> overlap_with prev c = chunk_overlap)
      /\ take (overlap_with prev c) (chunk_text c)
         = drop (length (chunk_text prev) - overlap_with prev c) (chunk_text prev)
      /\ overlap_invariant c cs
  end.

End Splitter.

Arguments Chunk A : clear implicits.

(** Modelled from the spec: the default maximum chunk length of section 3
    (the configuration in [ingest.py] is missing from the sources). *)
Definition default_chunk_size : nat := 500.

(** Modelled from the spec: the default overlap of section 3. *)
Definition default_chunk_overlap : nat := 100.

(** Modelled from the spec: a boundary of the missing splitter, one past
    the last position of [window] that holds a character satisfying [sep]
    (0 when there is none). *)
Fixpoint boundary_after (sep : ascii -> bool) (pos : nat) (window : list ascii) : nat :=
  match window with
  | [] => 0
  | c :: rest =>
      let later := boundary_after sep (S pos) rest in
      if later =? 0 then (if sep c then S pos else 0) else later
  end.

(** Modelled from the spec: the paragraph boundaries of section 3 (a line
    feed), the separators of the splitter being missing from the sources. *)
Definition is_paragraph_break (c : ascii) : bool := Ascii.eqb c "010"%char.

(** Modelled from the spec: the sentence boundaries of section 3. *)
Definition is_sentence_end (c : ascii) : bool :=
  Ascii.eqb c "."%char || Ascii.eqb c "!"%char || Ascii.eqb c "?"%char.

(** Modelled from the spec: the word boundaries of section 3. *)
Definition is_word_break (c : ascii) : bool := Ascii.eqb c " "%char.

(** Modelled from the spec: "preferring to break on paragraph/sentence/word
    boundaries before falling back to a hard character cut" (section 3):
    the first of the three kinds that has a boundary beyond the overlap. *)
Definition prefer_boundary (overlap : nat) (window : list ascii) : nat :=
  let para := boundary_after is_paragraph_break 0 window in
  let sent := boundary_after is_sentence_end 0 window in
  let word := boundary_after is_word_break 0 window in
  if overlap <? para then para
  else if overlap <? sent then sent
  else if overlap <? word then word
  else 0.

(** Modelled from the spec: the missing Chunker at its defaults, on the
    extracted text of one document. *)
Definition chunk_document (text : string) : list (Chunk ascii) :=
  split_text default_chunk_size default_chunk_overlap
             (prefer_boundary default_chunk_overlap)
             (String.list_ascii_of_string text).

End Chunker.

(** ** The vector collection (back end; not among the sources) *)

Module Backend.

(** Modelled from the spec: a VectorRecord of section 3, without its
    embedding (a black box here): the chunk text and the document it cites. *)
Record VectorRecord : Type := mkVectorRecord {
  vr_document : string;
  vr_text : string
}.

(** Modelled from the spec: the vector collection of section 3, keyed by
    chunk id (document id and sequence index), so record ids are unique. *)
Abbreviation Collection := (gmap (string * nat) VectorRecord).

(** Modelled from the spec: the upsert of the Indexer of section 4.2 (the
    indexing code is missing from the sources), idempotent on the chunk id. *)
Definition upsert_chunk (document_id : string) (c : Collection)
    (ch : Chunker.Chunk ascii) : Collection :=
  <[(document_id, Chunker.chunk_index ch) :=
      {| vr_document := document_id;
         vr_text := String.string_of_list_ascii (Chunker.chunk_text ch) |}]> c.

(** Modelled from the spec: the missing Indexer (section 4.2) upserts one
    record per chunk of the document.  Embedding failures are not
    modelled: every chunk is indexed. *)
Definition Ingest (document_id raw_text : string) (c : Collection) : Collection :=
  foldl (upsert_chunk document_id) c (Chunker.chunk_document raw_text).

(** Modelled from the spec: the missing reset of the back end, "A full
    reset drops the entire collection and recreates it empty" (section 4.2). *)
Definition Reset (c : Collection) : Collection := ∅.

(** Modelled from the spec: the missing upload endpoint ingests each
    uploaded file under its name (the text extraction of section 6 is taken
    to return the content of the file). *)
Definition ingest_fields (fields : list (string * File)) (c : Collection) : Collection :=
  foldl (fun c f => Ingest (file_name (snd f)) (file_text (snd f)) c) c fields.

(** Modelled from the spec: the missing endpoints of the back end, by what
    a request answered with an ok response has done to the collection: [DELETE /reset] clears it,
    [POST /upload] ingests the uploaded file, and nothing else touches it
    (section 3: "deleted only by a full collection reset").  A request that
    is rejected or answered with a non-ok status leaves it as it was. *)
Definition serve (base : string) (req : Request) (ok : bool) (c : Collection) : Collection :=
  if negb ok then c
  else if String.eqb (method req) "DELETE" && String.eqb (url req) (base +:+ "/reset")
  then Reset c
  else if String.eqb (method req) "POST" && String.eqb (url req) (base +:+ "/upload")
  then match body req with
       | FormData fields => ingest_fields fields c
       | _ => c
       end
  else c.

End Backend.
Import Backend.

(** ** [app/page.tsx] *)

Module Page.

Definition STORAGE_KEY_MESSAGES : string := "nanobook_messages".
Definition STORAGE_KEY_SOURCES : string := "nanobook_sources".

(** [{ type: 'success' | 'error'; msg: string }] *)
Record UploadStatus : Type := mkUploadStatus {
  status_type : string;
  msg : string
}.

(** The page after it has mounted: the React state the handlers touch, the
    browser's localStorage (a value is stored as the JSON document that
    [JSON.stringify] writes and [JSON.parse] reads back; the theme, which is
    stored as a bare word, as the JSON string of that word) and console, and
    the network: the build-time base URL, the requests sent so far and the
    collection on the other side. *)
Record World : Type := mkWorld {
  messages : list Message;
  sources : list Source;
  inputValue : string;
  isTyping : bool;
  isUploading : bool;
  uploadStatus : option UploadStatus;
  localStorage : gmap string json;
  console : list (list string);
  NEXT_PUBLIC_BASE_URL : option string;
  requests : list Request;
  collection : Collection
}.

Definition setMessages (v : list Message) (w : World) : World :=
  mkWorld v (sources w) (inputValue w) (isTyping w) (isUploading w) (uploadStatus w)
          (localStorage w) (console w) (NEXT_PUBLIC_BASE_URL w) (requests w) (collection w).
Definition setSources (v : list Source) (w : World) : World :=
  mkWorld (messages w) v (inputValue w) (isTyping w) (isUploading w) (uploadStatus w)
          (localStorage w) (console w) (NEXT_PUBLIC_BASE_URL w) (requests w) (collection w).
Definition setInputValue (v : string) (w : World) : World :=
  mkWorld (messages w) (sources w) v (isTyping w) (isUploading w) (uploadStatus w)
          (localStorage w) (console w) (NEXT_PUBLIC_BASE_URL w) (requests w) (collection w).
Definition setIsTyping (v : bool) (w : World) : World :=
  mkWorld (messages w) (sources w) (inputValue w) v (isUploading w) (uploadStatus w)
          (localStorage w) (console w) (NEXT_PUBLIC_BASE_URL w) (requests w) (collection w).
Definition setIsUploading (v : bool) (w : World) : World :=
  mkWorld (messages w) (sources w) (inputValue w) (isTyping w) v (uploadStatus w)
          (localStorage w) (console w) (NEXT_PUBLIC_BASE_URL w) (requests w) (collection w).
Definition setUploadStatus (v : option UploadStatus) (w : World) : World :=
  mkWorld (messages w) (sources w) (inputValue w) (isTyping w) (isUploading w) v
          (localStorage w) (console w) (NEXT_PUBLIC_BASE_URL w) (requests w) (collection w).
Definition setLocalStorage (v : gmap string json) (w : World) : World :=
  mkWorld (messages w) (sources w) (inputValue w) (isTyping w) (isUploading w) (uploadStatus w)
          v (console w) (NEXT_PUBLIC_BASE_URL w) (requests w) (collection w).
Definition console_error (args : list string) (w : World) : World :=
  mkWorld (messages w) (sources w) (inputValue w) (isTyping w) (isUploading w) (uploadStatus w)
          (localStorage w) (console w ++ [args]) (NEXT_PUBLIC_BASE_URL w) (requests w) (collection w).

(** [fetch(...)] puts the request on the wire ... *)
Definition fetch (req : Request) (w : World) : World :=
  mkWorld (messages w) (sources w) (inputValue w) (isTyping w) (isUploading w) (uploadStatus w)
          (localStorage w) (console w) (NEXT_PUBLIC_BASE_URL w) (requests w ++ [req]) (collection w).

Definition answered_ok {T : Type} (out : FetchOutcome T) : bool :=
  match out with
  | Rejected _ => false
  | Responded ok _ _ => ok
  end.

(** ... and by the time the promise settles the back end has served it. *)
Definition settled {T : Type} (req : Request) (out : FetchOutcome T) (w : World) : World :=
  mkWorld (messages w) (sources w) (inputValue w) (isTyping w) (isUploading w) (uploadStatus w)
          (localStorage w) (console w) (NEXT_PUBLIC_BASE_URL w) (requests w)
          (Backend.serve (BASE_URL (NEXT_PUBLIC_BASE_URL w)) req (answered_ok out) (collection w)).

(** The two persistence effects ([useEffect] on [messages] and on
    [sources]) that run after a render in which these changed. *)
Definition persist (w : World) : World :=
  setLocalStorage
    (<[STORAGE_KEY_SOURCES := JArray (map Source_json (sources w))]>
       (<[STORAGE_KEY_MESSAGES := JArray (map Message_json (messages w))]> (localStorage w)))
    w.

(** The effect of a render in which the messages changed ([useEffect] on
    [messages], the page being mounted), and the same for the sources. *)
Definition persist_messages (w : World) : World :=
  setLocalStorage
    (<[STORAGE_KEY_MESSAGES := JArray (map Message_json (messages w))]> (localStorage w)) w.

Definition persist_sources (w : World) : World :=
  setLocalStorage
    (<[STORAGE_KEY_SOURCES := JArray (map Source_json (sources w))]> (localStorage w)) w.

(** A string holds the text of the page as its UTF-8 bytes; [utf8] is the
    encoding of a code point below U+10000. *)
Definition utf8 (code : N) : string :=
  if (code <? 0x80)%N then String (ascii_of_N code) ""
  else if (code <? 0x800)%N then
    String (ascii_of_N (0xC0 + code / 0x40))
      (String (ascii_of_N (0x80 + code mod 0x40)) "")
  else
    String (ascii_of_N (0xE0 + code / 0x1000))
      (String (ascii_of_N (0x80 + (code / 0x40) mod 0x40))
         (String (ascii_of_N (0x80 + code mod 0x40)) "")).

(** What [String.prototype.trim] strips: the white space of the language
    (TAB, VT, FF, SP, NBSP, ZWNBSP and the Unicode space separators) and its
    line terminators (LF, CR, LS, PS). *)
Definition white_space_code_points : list N :=
  [0x9; 0xB; 0xC; 0x20; 0xA0; 0xFEFF;
   0x1680; 0x2000; 0x2001; 0x2002; 0x2003; 0x2004; 0x2005; 0x2006; 0x2007;
   0x2008; 0x2009; 0x200A; 0x202F; 0x205F; 0x3000;
   0xA; 0xD; 0x2028; 0x2029]%N.

Definition white_space : list string := map utf8 white_space_code_points.

(** [Some rest] when [s] is [p] followed by [rest]. *)
Fixpoint strip_prefix (p s : string) : option string :=
  match p, s with
  | EmptyString, _ => Some s
  | String a p', String b s' => if Ascii.eqb a b then strip_prefix p' s' else None
  | String _ _, EmptyString => None
  end.

Fixpoint first_stripped (table : list string) (s : string) : option string :=
  match table with
  | [] => None
  | p :: rest =>
      match strip_prefix p s with
      | Some r => Some r
      | None => first_stripped rest s
      end
  end.

(** [s] without one leading white space character, if it has one. *)
Definition white_prefix (s : string) : option string := first_stripped white_space s.

Fixpoint trimStart_from (fuel : nat) (s : string) : string :=
  match fuel with
  | 0 => s
  | S fuel' =>
      match white_prefix s with
      | Some rest => trimStart_from fuel' rest
      | None => s
      end
  end.

(** Every step takes at least one byte, so the length is fuel enough. *)
Definition trimStart (s : string) : string := trimStart_from (String.length s) s.

Definition is_blank (s : string) : bool := String.eqb (trimStart s) "".

(** The longest prefix that does not end in white space. *)
Fixpoint trimEnd (s : string) : string :=
  match s with
  | EmptyString => EmptyString
  | String c rest => if is_blank s then EmptyString else String c (trimEnd rest)
  end.

(** [String.prototype.trim] *)
Definition trim (s : string) : string := trimEnd (trimStart s).

(** [a || b] on strings: [undefined] and the empty string are falsy. *)
Definition or_else (a : option string) (b : string) : string :=
  match a with
  | Some "" | None => b
  | Some s => s
  end.

(** *** [handleSendMessage] *)

Definition to_history (msg : Message) : MessageHistoryItem :=
  {| role := if Role_eqb (msg_role msg) USER then "user" else "model";
     parts := [msg_content msg] |}.

Definition fallback_text : string :=
  "I encountered an error while processing your request. Please check your connection and try again.".

(** Up to the [await]: [None] is the early return on a blank input;
    otherwise the request that goes out and the page as it is while the
    request is in flight.  [now_id] and [now_ts] are the two readings of
    [Date.now()]. *)
Definition handleSendMessage_send (now_id now_ts : Z) (w : World)
    : option (ChatRequest * World) :=
  if String.eqb (trim (inputValue w)) "" then None
  else
    let currentQuery := inputValue w in
    let userMessage :=
      {| msg_id := pretty now_id; msg_role := USER;
         msg_content := currentQuery; msg_timestamp := now_ts |} in
    let newMessages := messages w ++ [userMessage] in
    let chatRequest :=
      {| user_query := inputValue w;
         history := map to_history (messages w) |} in
    Some (chatRequest,
          fetch (sendChatMessage_request (NEXT_PUBLIC_BASE_URL w) chatRequest)
                (setIsTyping true (setInputValue "" (setMessages newMessages w)))).

(** After the [await]: the request has been served, [sendChatMessage]
    returns or throws, and the reply or the fallback text is appended to
    whatever the messages are by then ([setMessages((prev) => ...)]). *)
Definition handleSendMessage_settle (chatRequest : ChatRequest)
    (out : FetchOutcome ChatResponse) (now_id now_ts : Z) (w : World) : World :=
  let w := settled (sendChatMessage_request (NEXT_PUBLIC_BASE_URL w) chatRequest) out w in
  match sendChatMessage out with
  | Ok response =>
      let aiMessage :=
        {| msg_id := pretty (now_id + 1)%Z; msg_role := model;
           msg_content := Types.response response; msg_timestamp := now_ts |} in
      setIsTyping false (setMessages (messages w ++ [aiMessage]) w)
  | Throw error =>
      let w := console_error [error] w in
      let errorMessage :=
        {| msg_id := pretty (now_id + 1)%Z; msg_role := model;
           msg_content := fallback_text; msg_timestamp := now_ts |} in
      setIsTyping false (setMessages (messages w ++ [errorMessage]) w)
  end.

(** What the outside world contributes to one send. *)
Record SendEnv : Type := mkSendEnv {
  user_now_id : Z;
  user_now_ts : Z;
  chat_outcome : FetchOutcome ChatResponse;
  reply_now_id : Z;
  reply_now_ts : Z
}.

(** One send with nothing else happening in between, from the call of the
    handler to its return: while the request is awaited the page renders
    with the user's message and the effect of that render persists the
    messages.  The effect of the render that the reply causes runs after
    the handler has returned, as it does for [handleReset]. *)
Definition handleSendMessage (e : SendEnv) (w : World) : World :=
  match handleSendMessage_send (user_now_id e) (user_now_ts e) w with
  | None => w
  | Some (chatRequest, w) =>
      handleSendMessage_settle chatRequest (chat_outcome e)
                               (reply_now_id e) (reply_now_ts e) (persist_messages w)
  end.

(** *** [handleFileUpload] *)

(** What the outside world contributes to the upload of one file:
    the outcome of its request, [Math.random().toString(36).substr(2, 9)]
    and [Date.now()]. *)
Record UploadEnv : Type := mkUploadEnv {
  upload_outcome : FetchOutcome UploadResponse;
  random_id : string;
  upload_now : Z
}.

(** [{ success, name }] *)
Record UploadResult : Type := mkUploadResult {
  success : bool;
  name : string
}.

Definition newSource (e : UploadEnv) (file : File) (response : UploadResponse) : Source :=
  {| src_id := random_id e;
     src_name := file_name file;
     src_content := or_else (filename response) (file_name file);
     src_type := or_else (Some (file_type file)) "application/octet-stream";
     src_size := file_size file;
     src_uploadDate := upload_now e |}.

(** The mapper's [try]/[catch] once the file's request has settled. *)
Definition upload_settle (e : UploadEnv) (file : File) (w : World) : World :=
  let w := settled (uploadDocument_request (NEXT_PUBLIC_BASE_URL w) file) (upload_outcome e) w in
  match uploadDocument (upload_outcome e) with
  | Ok response =>
      setSources (sources w ++ [newSource e file response]) w
  | Throw error =>
      console_error ["Failed to upload " +:+ file_name file +:+ ":"; error] w
  end.

Definition upload_result (e : UploadEnv) (file : File) : UploadResult :=
  {| success := is_ok (uploadDocument (upload_outcome e)); name := file_name file |}.

(** [Array.from(files).map(async ...)]: every mapper runs up to its first
    [await], so all the requests go out, in the order of the files. *)
Definition upload_start (files : list File) (w : World) : World :=
  foldl (fun w file => fetch (uploadDocument_request (NEXT_PUBLIC_BASE_URL w) file) w)
        (setUploadStatus None (setIsUploading true w)) files.

(** A request settles and, when it succeeded, the render that [setSources]
    causes runs its effect, which persists the sources. *)
Definition upload_settled (e : UploadEnv) (file : File) (w : World) : World :=
  if is_ok (uploadDocument (upload_outcome e))
  then persist_sources (upload_settle e file w)
  else upload_settle e file w.

(** The requests settle in the order the network decides: [order] lists
    the indices of the files as their requests complete. *)
Definition upload_settle_all (files : list File) (env : nat -> UploadEnv)
    (order : list nat) (w : World) : World :=
  foldl (fun w i =>
           match files !! i with
           | Some file => upload_settled (env i) file w
           | None => w
           end) w order.

(** [order] is a schedule for [n] requests when it lists each index below
    [n] once. *)
Definition is_schedule (n : nat) (order : list nat) : bool :=
  (length order =? n) && forallb (fun i => existsb (Nat.eqb i) order) (seq 0 n).

(** [await Promise.all(uploadPromises)]: the results, in the order of the
    files whatever the order of completion. *)
Definition upload_results (files : list File) (env : nat -> UploadEnv) : list UploadResult :=
  imap (fun i file => upload_result (env i) file) files.

Definition plural (n : nat) : string := if 1 <? n then "s" else "".

Definition upload_finish (results : list UploadResult) (w : World) : World :=
  let successCount := length (List.filter success results) in
  let failCount := length (List.filter (fun r => negb (success r)) results) in
  let status :=
    if 0 <? successCount then
      {| status_type := "success";
         msg := "Successfully uploaded " +:+ pretty successCount +:+ " file"
                +:+ plural successCount
                +:+ (if 0 <? failCount then ", " +:+ pretty failCount +:+ " failed" else "") |}
    else
      {| status_type := "error";
         msg := "Failed to upload " +:+ pretty failCount +:+ " file" +:+ plural failCount |} in
  setIsUploading false (setUploadStatus (Some status) w).

(** [files] is [e.target.files] ([None] for [null]).  [Promise.all]
    resolves once every request has settled: an [order] that is not a
    schedule stands for a batch some request of which has not settled yet,
    where the handler is still waiting and there are no results.  The
    status is cleared by a timer five seconds later, which is another
    event. *)
Definition handleFileUpload (files : option (list File)) (env : nat -> UploadEnv)
    (order : list nat) (w : World) : World * list UploadResult :=
  match files with
  | None => (w, [])
  | Some files =>
      let settled := upload_settle_all files env order (upload_start files w) in
      if is_schedule (length files) order then
        let results := upload_results files env in
        (upload_finish results settled, results)
      else (settled, [])
  end.

(** *** [handleRemoveSource] *)

Definition handleRemoveSource (id : string) (w : World) : World :=
  setSources (List.filter (fun s => negb (String.eqb (src_id s) id)) (sources w)) w.

(** *** [handleReset] *)

(** [confirmed] is the answer to [window.confirm].  There is no [catch]:
    what [resetSources] throws leaves the handler after the [finally]. *)
Definition handleReset (confirmed : bool) (out : FetchOutcome unit) (w : World)
    : World * Result unit :=
  if confirmed then
    let req := resetSources_request (NEXT_PUBLIC_BASE_URL w) in
    let w := settled req out (fetch req w) in
    let result := resetSources out in
    let w := setSources [] (setMessages [] w) in
    (setLocalStorage
       (delete STORAGE_KEY_SOURCES (delete STORAGE_KEY_MESSAGES (localStorage w))) w,
     result)
  else (w, Ok tt).

(** *** Everything the user can do to the page *)

Inductive Operation : Type :=
| TypeInput (value : string)
| SendMessage (e : SendEnv)
| UploadFiles (files : option (list File)) (env : nat -> UploadEnv) (order : list nat)
| RemoveSource (id : string)
| ResetProject (confirmed : bool) (out : FetchOutcome unit).

Definition run (op : Operation) (w : World) : World :=
  match op with
  | TypeInput value => setInputValue value w
  | SendMessage e => handleSendMessage e w
  | UploadFiles files env order => fst (handleFileUpload files env order w)
  | RemoveSource id => handleRemoveSource id w
  | ResetProject confirmed out => fst (handleReset confirmed out w)
  end.

Definition is_confirmed_reset (op : Operation) : bool :=
  match op with
  | ResetProject confirmed _ => confirmed
  | _ => false
  end.

End Page.
Import Page.

(** ** The result shapes of section 6 of the specification *)

Module Spec.

(** Follows the spec's words: a source is [{document_name, chunk_excerpt}]. *)
Definition is_source (j : json) : bool :=
  is_string (get "document_name" j) && is_string (get "chunk_excerpt" j).

(** Follows the spec's words: Query returns
    [{answer: string, sources: ordered list of {document_name, chunk_excerpt}}]. *)
Definition is_QueryResult (j : json) : bool :=
  is_string (get "answer" j) &&
  match get "sources" j with
  | Some (JArray items) => forallb is_source items
  | _ => false
  end.

(** Follows the spec's words: Ingest returns
    [{chunks_indexed: int, failed_chunk_indices: [int]}]. *)
Definition is_IngestResult (j : json) : bool :=
  is_number (get "chunks_indexed" j) &&
  match get "failed_chunk_indices" j with
  | Some (JArray items) => forallb (fun i => is_number (Some i)) items
  | _ => false
  end.

End Spec.

(** ** What an operation leaves in place *)

Module Frame.

(** No record of [c] is missing from [c'] (a record may have been
    replaced by an upsert under the same chunk id). *)
Definition keeps_records (c c' : Collection) : Prop :=
  forall k, is_Some (c !! k) -> is_Some (c' !! k).

(** From [w] to [w'] the base URL is the same, the only requests added are
    requests other than [DELETE], and no record of the collection is
    missing. *)
Record grows (w w' : World) : Prop := mkGrows {
  grows_env : NEXT_PUBLIC_BASE_URL w' = NEXT_PUBLIC_BASE_URL w;
  grows_requests :
    exists new, requests w' = requests w ++ new /\
                Forall (fun r => method r <> "DELETE") new;
  grows_collection : keeps_records (collection w) (collection w')
}.

End Frame.
Import Frame.

(** ** The effects of [app/page.tsx] *)

Module Effects.

Definition STORAGE_KEY_THEME : string := "nanobook_theme".

(** [JSON.parse] typed as [Message[]] and [Source[]]: the typed view of a
    stored document.  [None] stands for a document that is not of the type
    the page declares for it, where this typed model does not follow the
    page any further. *)
Definition Role_of_json (j : json) : option Role :=
  match j with
  | JString r =>
      if String.eqb r "user" then Some USER
      else if String.eqb r "model" then Some model
      else None
  | _ => None
  end.

Definition Message_of_json (j : json) : option Message :=
  match get "id" j, get "role" j, get "content" j, get "timestamp" j with
  | Some (JString i), Some r, Some (JString c), Some (JNumber t) =>
      match Role_of_json r with
      | Some r => Some (mkMessage i r c t)
      | None => None
      end
  | _, _, _, _ => None
  end.

Definition Source_of_json (j : json) : option Source :=
  match get "id" j, get "name" j, get "content" j,
        get "type" j, get "size" j, get "uploadDate" j with
  | Some (JString i), Some (JString n), Some (JString c),
    Some (JString t), Some (JNumber z), Some (JNumber d) =>
      Some (mkSource i n c t z d)
  | _, _, _, _, _, _ => None
  end.

Fixpoint all_of_json {T : Type} (one : json -> option T) (items : list json)
    : option (list T) :=
  match items with
  | [] => Some []
  | j :: rest =>
      match one j, all_of_json one rest with
      | Some v, Some vs => Some (v :: vs)
      | _, _ => None
      end
  end.

Definition array_of_json {T : Type} (one : json -> option T) (j : json) : option (list T) :=
  match j with
  | JArray items => all_of_json one items
  | _ => None
  end.

(** The first effect, on mount: [if (savedMessages) setMessages(JSON.parse(
    savedMessages))] and the same for the sources; a key that is not there
    leaves the state as it is. *)
Definition load_effect (w : World) : option World :=
  match
    match localStorage w !! STORAGE_KEY_MESSAGES with
    | Some saved =>
        match array_of_json Message_of_json saved with
        | Some ms => Some (setMessages ms w)
        | None => None
        end
    | None => Some w
    end
  with
  | Some w =>
      match localStorage w !! STORAGE_KEY_SOURCES with
      | Some saved =>
          match array_of_json Source_of_json saved with
          | Some ss => Some (setSources ss w)
          | None => None
          end
      | None => Some w
      end
  | None => None
  end.

(** The two persistence effects, each with its guard: [mounted] is the
    value the render that scheduled the effect saw. *)
Definition persist_messages_effect (mounted : bool) (w : World) : World :=
  if negb mounted then w
  else setLocalStorage
         (<[STORAGE_KEY_MESSAGES := JArray (map Message_json (messages w))]> (localStorage w)) w.

Definition persist_sources_effect (mounted : bool) (w : World) : World :=
  if negb mounted then w
  else setLocalStorage
         (<[STORAGE_KEY_SOURCES := JArray (map Source_json (sources w))]> (localStorage w)) w.

(** The state of a first render ([useState] initial values) over a given
    browser and network. *)
Definition first_render (storage : gmap string json) (console : list (list string))
    (env : option string) (requests : list Request) (collection : Collection) : World :=
  mkWorld [] [] "" false false None storage console env requests collection.

(** What the theme touches outside React: the class list of
    [document.documentElement] and the theme item of localStorage (a plain
    string, not a JSON document). *)
Record Dom : Type := mkDom {
  classList : gset string;
  themeItem : option string
}.

(** [if (savedTheme) setDarkMode(savedTheme === 'dark')]: the dark mode
    after the load, given the one before it. *)
Definition load_theme (d : Dom) (darkMode : bool) : bool :=
  match themeItem d with
  | Some "" | None => darkMode
  | Some saved => String.eqb saved "dark"
  end.

(** The theme effect, on [darkMode] and [mounted] as its render saw them. *)
Definition theme_effect (mounted darkMode : bool) (d : Dom) : Dom :=
  if negb mounted then d
  else
    {| classList := if darkMode then classList d ∪ {["dark"]} else classList d ∖ {["dark"]};
       themeItem := Some (if darkMode then "dark" else "light") |}.

(** Mounting, for the theme: [useState(false)], then the load, then the
    theme effect of each of the two renders. *)
Definition mount_theme (d : Dom) : bool * Dom :=
  let darkMode := load_theme d false in
  (darkMode, theme_effect true darkMode (theme_effect false false d)).

(** The theme item of a storage: the word held by the JSON string at the
    theme key. *)
Definition stored_theme (storage : gmap string json) : option string :=
  match storage !! STORAGE_KEY_THEME with
  | Some (JString word) => Some word
  | _ => None
  end.

(** Mounting the page, with the class list of the document: the effects of
    the first render run with [mounted = false] (only the load does
    anything), those of the render that follows with [mounted = true]: the
    theme effect, which writes the theme into the same localStorage, and
    the two persistence effects.  The result is the dark mode, the class
    list and the page. *)
Definition mount (classes : gset string) (w : World) : option (bool * gset string * World) :=
  match load_effect w with
  | Some loaded =>
      let (darkMode, d) :=
        mount_theme {| classList := classes; themeItem := stored_theme (localStorage w) |} in
      let w1 := persist_sources_effect false (persist_messages_effect false loaded) in
      let w2 := persist_sources_effect true (persist_messages_effect true w1) in
      let storage :=
        match themeItem d with
        | Some word => <[STORAGE_KEY_THEME := JString word]> (localStorage w2)
        | None => localStorage w2
        end in
      Some (darkMode, classList d, setLocalStorage storage w2)
  | None => None
  end.

(** [onToggleTheme] followed by the effect of the render it causes. *)
Definition toggle_theme (darkMode : bool) (d : Dom) : bool * Dom :=
  (negb darkMode, theme_effect true (negb darkMode) d).

End Effects.

(** ** [app/components/SourceCard.tsx] *)

Module SourceCard.

(** [x.toFixed(1)] for [x = num / den] with [0 <= num] and [0 < den]: the
    number of tenths nearest to [x], the larger one on a tie, written with
    one decimal.  The quotients the card forms (a file size below 2^53 by a
    power of two) are exact as floating point numbers. *)
Definition tenths (num den : Z) : Z := ((20 * num + den) / (2 * den))%Z.

Definition toFixed1 (num den : Z) : string :=
  let n := tenths num den in
  pretty (n / 10)%Z +:+ "." +:+ pretty (n mod 10)%Z.

Definition formatSize (bytes : Z) : string :=
  if (bytes <? 1024)%Z then pretty bytes +:+ " B"
  else if (bytes <? 1048576)%Z then toFixed1 bytes 1024 +:+ " KB"
  else toFixed1 bytes 1048576 +:+ " MB".

(** [s.split(sep)] for a one-character separator: at least one piece. *)
Fixpoint split (sep : ascii) (s : string) : list string :=
  match s with
  | EmptyString => [EmptyString]
  | String c rest =>
      if Ascii.eqb c sep then EmptyString :: split sep rest
      else match split sep rest with
           | piece :: pieces => String c piece :: pieces
           | [] => [String c EmptyString]
           end
  end.

(** [toUpperCase] on the letters a to z (other bytes are left alone). *)
Definition upper (c : ascii) : ascii :=
  let n := nat_of_ascii c in
  if (97 <=? n) && (n <=? 122) then ascii_of_nat (n - 32) else c.

Fixpoint toUpperCase (s : string) : string :=
  match s with
  | EmptyString => EmptyString
  | String c rest => String (upper c) (toUpperCase rest)
  end.

(** [source.type.split('/')[1]?.toUpperCase() || 'TXT'] *)
Definition type_label (type : string) : string :=
  or_else (toUpperCase <$> (split "/"%char type !! 1)) "TXT".

End SourceCard.

(** ** [app/components/ChatArea.tsx] *)

Module ChatArea.

(** [disabled={!inputValue.trim() || isTyping}] on the send button; the
    page passes [isTyping || isUploading] as [isTyping]. *)
Definition send_disabled (w : World) : bool :=
  String.eqb (trim (inputValue w)) "" || (isTyping w || isUploading w).

(** [handleKeyPress]: Enter without Shift calls [onSendMessage]; [None]
    when nothing goes out. *)
Definition handleKeyPress (key : string) (shiftKey : bool) (now_id now_ts : Z) (w : World)
    : option (ChatRequest * World) :=
  if String.eqb key "Enter" && negb shiftKey
  then handleSendMessage_send now_id now_ts w
  else None.

(** A click on the send button, which a disabled button does not deliver. *)
Definition click_send (now_id now_ts : Z) (w : World) : option (ChatRequest * World) :=
  if send_disabled w then None else handleSendMessage_send now_id now_ts w.

End ChatArea.

(** * Properties *)

(** ** The chunker covers its input *)

Section ChunkerFacts.
Context {A : Type}.
Variables (chunk_size chunk_overlap : nat) (prefer : list A -> nat).
Hypothesis overlap_lt_size : chunk_overlap < chunk_size.
Variable text : list A.

Local Abbreviation cut := (Chunker.cut chunk_overlap prefer).
Local Abbreviation split_from := (Chunker.split_from chunk_size chunk_overlap prefer).
Local Abbreviation is_chunk_of := (Chunker.is_chunk_of chunk_size text).
Local Abbreviation overlap_invariant := (Chunker.overlap_invariant chunk_overlap).

(** A cut leaves room for the overlap and stays inside the window. *)
Lemma cut_bounds (window : list A) :
  length window = chunk_size ->
  chunk_overlap < cut window /\ cut window <= chunk_size.
Proof.
  intros Hlen. unfold Chunker.cut.
  destruct (chunk_overlap <? prefer window) eqn:Hlo; simpl.
  - destruct (prefer window <=? length window) eqn:Hhi.
    + apply Nat.ltb_lt in Hlo. apply Nat.leb_le in Hhi. lia.
    + lia.
  - lia.
Qed.

Lemma slice_length (from to : nat) :
  from <= to -> to <= length text -> length (Chunker.slice text from to) = to - from.
Proof.
  intros Hft Hto. unfold Chunker.slice. rewrite length_take, length_drop. lia.
Qed.

(** A slice splits at any offset inside it. *)
Lemma slice_app (from mid to : nat) :
  from <= mid -> mid <= to ->
  Chunker.slice text from mid ++ Chunker.slice text mid to = Chunker.slice text from to.
Proof.
  intros Hfm Hmt. unfold Chunker.slice.
  replace (to - from) with ((mid - from) + (to - mid)) by lia.
  rewrite <- take_take_drop, drop_drop.
  by replace (from + (mid - from)) with mid by lia.
Qed.

Lemma slice_to_end (from : nat) :
  Chunker.slice text from (length text) = drop from text.
Proof.
  unfold Chunker.slice. apply take_ge. rewrite length_drop. lia.
Qed.

Lemma slice_drop (from to k : nat) :
  Chunker.slice text (from + k) to = drop k (Chunker.slice text from to).
Proof.
  unfold Chunker.slice. rewrite skipn_firstn_comm, drop_drop.
  by replace (to - (from + k)) with (to - from - k) by lia.
Qed.

Lemma slice_take (from to k : nat) :
  k <= to - from ->
  Chunker.slice text from (from + k) = take k (Chunker.slice text from to).
Proof.
  intros Hk. unfold Chunker.slice. rewrite take_take.
  by replace (from + k - from) with (k `min` (to - from)) by lia.
Qed.

(** The chunks after a chunk [prev] that ends [chunk_overlap] characters
    past the next window's start. *)
Lemma split_from_after (fuel : nat) :
  forall (prev : Chunker.Chunk A) index,
    is_chunk_of prev ->
    chunk_overlap <= length (Chunker.chunk_text prev) ->
    index = S (Chunker.chunk_index prev) ->
    length text - Chunker.chunk_end prev <= fuel ->
    let chunks :=
      split_from text fuel index (Chunker.chunk_end prev - chunk_overlap)
                 (Chunker.chunk_end prev) in
    Chunker.reassemble_after prev chunks = drop (Chunker.chunk_end prev) text
    /\ Forall is_chunk_of chunks
    /\ overlap_invariant prev chunks.
Proof.
  induction fuel as [|fuel IH]; intros prev index Hprev Hroom Hindex Hfuel.
  - destruct Hprev as (_ & Hend & _). simpl.
    split; [|by split; [constructor|]].
    symmetry. apply drop_ge. lia.
  - destruct Hprev as (Hslice & Hend & Hpos & Hmax).
    set (covered := Chunker.chunk_end prev) in *.
    assert (Hcov : chunk_overlap <= covered)
      by (unfold covered, Chunker.chunk_end; lia).
    cbv zeta. simpl.
    destruct (length text <=? covered) eqn:Hdone.
    { apply Nat.leb_le in Hdone. simpl.
      split; [|by split; [constructor|]].
      symmetry. apply drop_ge. lia. }
    apply Nat.leb_gt in Hdone.
    destruct (length text - (covered - chunk_overlap) <=? chunk_size) eqn:Hlast.
    { apply Nat.leb_le in Hlast.
      assert (Hlen : length (Chunker.slice text covered (length text))
                     = length text - covered) by (apply slice_length; lia).
      simpl. unfold Chunker.overlap_with. simpl. fold covered.
      replace (covered - covered) with 0 by lia.
      split; [|split].
      - by rewrite drop_0, app_nil_r, slice_to_end.
      - constructor; [|constructor].
        unfold Chunker.is_chunk_of, Chunker.chunk_end. simpl. rewrite Hlen.
        replace (covered + (length text - covered)) with (length text) by lia.
        repeat split; lia.
      - repeat split; try done; try lia.
        rewrite take_0. symmetry. apply drop_ge. lia. }
    apply Nat.leb_gt in Hlast.
    set (start := covered - chunk_overlap) in *.
    destruct (cut_bounds (Chunker.slice text start (start + chunk_size)))
      as [Hlo Hhi]; [rewrite slice_length; lia|].
    set (n := cut (Chunker.slice text start (start + chunk_size))) in *.
    set (c := Chunker.mkChunk index start (Chunker.slice text start (start + n))).
    assert (Hlen : length (Chunker.chunk_text c) = n).
    { simpl. rewrite slice_length by lia. lia. }
    assert (Hcend : Chunker.chunk_end c = start + n)
      by (unfold Chunker.chunk_end; rewrite Hlen; done).
    assert (Hc : is_chunk_of c).
    { unfold Chunker.is_chunk_of. rewrite Hcend, Hlen. simpl.
      repeat split; lia. }
    destruct (IH c (S index) Hc) as (Hre & Hall & Hinv);
      [lia | done | rewrite Hcend; lia |].
    rewrite Hcend in Hre, Hall, Hinv.
    assert (Hov : Chunker.overlap_with prev c = chunk_overlap).
    { unfold Chunker.overlap_with. fold covered. simpl. unfold start. lia. }
    simpl. fold c. rewrite Hov.
    split; [|split].
    + rewrite Hre. simpl.
      rewrite <- slice_drop.
      replace (start + chunk_overlap) with covered by (unfold start; lia).
      rewrite <- (slice_to_end (start + n)), <- (slice_to_end covered).
      apply slice_app; lia.
    + by constructor.
    + assert (Hplen : length (Chunker.chunk_text prev)
                      = covered - Chunker.chunk_start prev)
        by (unfold covered, Chunker.chunk_end; lia).
      repeat split; try done; try lia.
      rewrite Hplen, Hslice.
      rewrite <- (slice_take start (start + n)) by lia.
      rewrite <- slice_drop.
      f_equal; unfold start; lia.
Qed.

(** One step of the splitter. *)
Lemma split_from_step (fuel index start covered : nat) :
  split_from text (S fuel) index start covered =
  if length text <=? covered then []
  else if length text - start <=? chunk_size then
    [Chunker.mkChunk index covered (Chunker.slice text covered (length text))]
  else
    let n := cut (Chunker.slice text start (start + chunk_size)) in
    Chunker.mkChunk index start (Chunker.slice text start (start + n))
    :: split_from text fuel (S index) (start + n - chunk_overlap) (start + n).
Proof. reflexivity. Qed.

(** The whole text: the first window opens at offset 0. *)
Lemma split_from_start (fuel : nat) :
  length text <= fuel ->
  let chunks := split_from text fuel 0 0 0 in
  Chunker.reassemble chunks = text
  /\ Forall is_chunk_of chunks
  /\ match chunks with
     | [] => text = []
     | c :: cs =>
         Chunker.chunk_index c = 0 /\ Chunker.chunk_start c = 0
         /\ overlap_invariant c cs
     end.
Proof.
  intros Hfuel. cbv zeta.
  destruct fuel as [|fuel].
  { assert (Hnil : text = []) by (apply length_zero_iff_nil; lia).
    rewrite Hnil. by repeat split. }
  rewrite split_from_step.
  destruct (length text <=? 0) eqn:Hempty.
  { apply Nat.leb_le in Hempty.
    assert (Hnil : text = []) by (apply length_zero_iff_nil; lia).
    rewrite Hnil. by repeat split. }
  apply Nat.leb_gt in Hempty.
  rewrite Nat.sub_0_r.
  destruct (length text <=? chunk_size) eqn:Hshort.
  { apply Nat.leb_le in Hshort.
    assert (Hwhole : Chunker.slice text 0 (length text) = text)
      by (rewrite slice_to_end; apply drop_0).
    rewrite Hwhole.
    split; [apply app_nil_r|]. split; [|done].
    constructor; [|constructor].
    unfold Chunker.is_chunk_of, Chunker.chunk_end,
      Chunker.chunk_text, Chunker.chunk_start.
    rewrite Nat.add_0_l, Hwhole. repeat split; lia. }
  apply Nat.leb_gt in Hshort.
  cbv zeta. rewrite !Nat.add_0_l.
  destruct (cut_bounds (Chunker.slice text 0 chunk_size))
    as [Hlo Hhi]; [rewrite slice_length; lia|].
  set (n := cut (Chunker.slice text 0 chunk_size)) in *.
  set (c := Chunker.mkChunk 0 0 (Chunker.slice text 0 n)).
  assert (Hlen : length (Chunker.chunk_text c) = n).
  { unfold c, Chunker.chunk_text. rewrite slice_length; lia. }
  assert (Hcend : Chunker.chunk_end c = n)
    by (unfold Chunker.chunk_end; rewrite Hlen; done).
  assert (Hc : is_chunk_of c).
  { unfold Chunker.is_chunk_of. rewrite Hcend, Hlen.
    repeat split; lia. }
  destruct (split_from_after fuel c 1 Hc) as (Hre & Hall & Hinv);
    [lia | done | rewrite Hcend; lia |].
  rewrite Hcend in Hre, Hall, Hinv.
  split; [|split].
  - unfold Chunker.reassemble. rewrite Hre.
    change (Chunker.chunk_text c) with (Chunker.slice text 0 n).
    rewrite <- (slice_to_end n), slice_app by lia.
    rewrite slice_to_end. apply drop_0.
  - by constructor.
  - done.
Qed.

End ChunkerFacts.

(** C8. For every document text, and whatever boundaries the splitter
    prefers, the chunks of the chunker reassembled minus their overlaps (the
    first chunk whole, every later one without the characters it shares
    with its predecessor) are the text of the document exactly.  Every chunk
    is the slice of the text at its offset range and holds between one and
    [chunk_size] characters; the first starts at offset 0, consecutive
    chunks leave no gap, share exactly [chunk_overlap] characters (the last
    chunk may share less) and the characters dropped in the reassembly are
    those the chunk before already ends with.  The chunker is the one
    modelled from the specification, for any chunk size and any smaller
    overlap. *)
Theorem chunker_round_trip {A : Type} (chunk_size chunk_overlap : nat)
    (prefer : list A -> nat) (text : list A) :
  chunk_overlap < chunk_size ->
  let chunks := Chunker.split_text chunk_size chunk_overlap prefer text in
  Chunker.reassemble chunks = text
  /\ Forall (Chunker.is_chunk_of chunk_size text) chunks
  /\ match chunks with
     | [] => text = []
     | c :: cs =>
         Chunker.chunk_index c = 0 /\ Chunker.chunk_start c = 0
         /\ Chunker.overlap_invariant chunk_overlap c cs
     end.
Proof.
  intros Hlt. by apply split_from_start.
Qed.

Lemma chunker_round_trip_witness :
  4 < 16 /\
  Chunker.reassemble
    (Chunker.split_text 16 4 (Chunker.prefer_boundary 4)
       (String.list_ascii_of_string
          "Retrieval grounds the answer. Every chunk overlaps the one before it."))
  = String.list_ascii_of_string
      "Retrieval grounds the answer. Every chunk overlaps the one before it.".
Proof.
  split; [lia|]. apply (chunker_round_trip 16 4); lia.
Defined.

(** The scenario of section 8: 1200 characters at chunk size 500 and
    overlap 100, with no boundary to prefer, give three chunks of 500, 500
    and 300 characters at offsets 0, 400 and 900. *)
Example chunker_scenario :
  map (fun c => (Chunker.chunk_index c, Chunker.chunk_start c,
                 length (Chunker.chunk_text c)))
      (Chunker.split_text Chunker.default_chunk_size Chunker.default_chunk_overlap
                          (fun _ => 0) (repeat "a"%char 1200))
  = [(0, 0, 500); (1, 400, 500); (2, 900, 300)].
Proof. by vm_compute. Qed.

(** ** Sending a chat message *)

(** The wire role of a message, spelled out. *)
Lemma to_history_role (m : Message) :
  role (to_history m) = match msg_role m with USER => "user" | model => "model" end.
Proof. unfold to_history. by destruct (msg_role m). Qed.

(** What a send that goes out has done by the time it awaits. *)
Lemma handleSendMessage_send_Some (now_id now_ts : Z) (w w' : World) (req : ChatRequest) :
  handleSendMessage_send now_id now_ts w = Some (req, w') ->
  trim (inputValue w) <> "" /\
  req = {| user_query := inputValue w; history := map to_history (messages w) |} /\
  w' = fetch (sendChatMessage_request (NEXT_PUBLIC_BASE_URL w) req)
         (setIsTyping true (setInputValue ""
            (setMessages (messages w ++
               [{| msg_id := pretty now_id; msg_role := USER;
                   msg_content := inputValue w; msg_timestamp := now_ts |}]) w))).
Proof.
  unfold handleSendMessage_send. intros H.
  destruct (String.eqb (trim (inputValue w)) "") eqn:Hblank; [discriminate|].
  apply String.eqb_neq in Hblank. by simplify_eq.
Qed.

(** C9. For every chat request sent, the history of the request is exactly
    the list of the messages displayed before the current query, in their
    order, each with its role mapped (USER to "user", anything else to
    "model") and its content wrapped as a one-element parts list; the
    current query is the user_query field and its own message, appended to
    the display, is not part of the history. *)
Theorem chat_request_history (now_id now_ts : Z) (w w' : World) (req : ChatRequest) :
  handleSendMessage_send now_id now_ts w = Some (req, w') ->
  history req =
    map (fun m => {| role := match msg_role m with USER => "user" | model => "model" end;
                     parts := [msg_content m] |}) (messages w) /\
  user_query req = inputValue w /\
  messages w' = messages w ++ [{| msg_id := pretty now_id; msg_role := USER;
                                  msg_content := inputValue w; msg_timestamp := now_ts |}] /\
  length (history req) = length (messages w) /\
  requests w' = requests w ++
    [{| method := "POST"; url := BASE_URL (NEXT_PUBLIC_BASE_URL w) +:+ "/chat";
        headers := [("Content-Type", "application/json")];
        body := JsonBody (JObject [("user_query", JString (inputValue w));
                                   ("history", JArray (map MessageHistoryItem_json (history req)))]) |}].
Proof.
  intros H. apply handleSendMessage_send_Some in H as (_ & -> & ->). simpl.
  repeat split.
  - apply map_ext. intros m. unfold to_history. by destruct (msg_role m).
  - by rewrite length_map.
Qed.

Lemma chat_request_history_witness :
  let w := mkWorld [mkMessage "1" USER "What is a chunk?" 1%Z;
                    mkMessage "2" model "A bounded text segment." 2%Z]
                   [] "And an embedding?" false false None ∅ [] None [] ∅ in
  exists req w',
    handleSendMessage_send 3 3 w = Some (req, w') /\
    history req = [mkMessageHistoryItem "user" ["What is a chunk?"];
                   mkMessageHistoryItem "model" ["A bounded text segment."]] /\
    user_query req = "And an embedding?".
Proof.
  intros w.
  destruct (handleSendMessage_send 3 3 w) as [[req w']|] eqn:E; [|discriminate E].
  exists req, w'. split; [reflexivity|].
  destruct (chat_request_history 3 3 w w' req E) as (Hh & Hq & _).
  split; [exact Hh | exact Hq].
Defined.

(** C2. For every query, the history handed to the Query operation is an
    ordered list that follows the displayed messages one for one, and every
    element of it has role exactly "user" or "model" and carries the content
    of its turn as a single text string. *)
Theorem history_roles_and_text (now_id now_ts : Z) (w w' : World) (req : ChatRequest) :
  handleSendMessage_send now_id now_ts w = Some (req, w') ->
  Forall2 (fun m h => (role h = "user" \/ role h = "model") /\ parts h = [msg_content m])
          (messages w) (history req) /\
  Forall (fun h => exists r text,
            (r = "user" \/ r = "model") /\
            MessageHistoryItem_json h =
              JObject [("role", JString r); ("parts", JArray [JString text])])
         (history req).
Proof.
  intros H. apply handleSendMessage_send_Some in H as (_ & -> & _). simpl.
  split.
  - induction (messages w) as [|m ms IH]; simpl; constructor; [|exact IH].
    split; [|done]. rewrite to_history_role. destruct (msg_role m); auto.
  - induction (messages w) as [|m ms IH]; simpl; constructor; [|exact IH].
    exists (role (to_history m)), (msg_content m). split; [|done].
    rewrite to_history_role. destruct (msg_role m); auto.
Qed.

Lemma history_roles_and_text_witness :
  let w := mkWorld [mkMessage "1" USER "What is a chunk?" 1%Z;
                    mkMessage "2" model "A bounded text segment." 2%Z]
                   [] "And an embedding?" false false None ∅ [] None [] ∅ in
  exists req w',
    handleSendMessage_send 3 3 w = Some (req, w') /\
    Forall2 (fun m h => (role h = "user" \/ role h = "model") /\ parts h = [msg_content m])
            (messages w) (history req).
Proof.
  intros w.
  destruct (handleSendMessage_send 3 3 w) as [[req w']|] eqn:E; [|discriminate E].
  exists req, w'. split; [reflexivity|].
  exact (proj1 (history_roles_and_text 3 3 w w' req E)).
Defined.

(** C4. When the chat call is answered with a non-ok response, the client
    raises an error ("Chat API error: " and the status text) whatever the
    body holds, so no answer text is returned; the text the user then sees
    is the fixed fallback text that the page itself appends, after logging
    the error. *)
Theorem chat_failure_raises (statusText : string) (body : Result ChatResponse)
    (req : ChatRequest) (now_id now_ts : Z) (w : World) :
  sendChatMessage (Responded false statusText body) = Throw ("Chat API error: " +:+ statusText) /\
  let w' := handleSendMessage_settle req (Responded false statusText body) now_id now_ts w in
  messages w' = messages w ++ [{| msg_id := pretty (now_id + 1)%Z; msg_role := model;
                                  msg_content := fallback_text; msg_timestamp := now_ts |}] /\
  console w' = console w ++ [["Chat API error: " +:+ statusText]] /\
  isTyping w' = false.
Proof. by repeat split. Qed.

(** ** What the three calls return *)

(** A body of the declared type holds the answer under [response]. *)
Lemma as_ChatResponse_Some (body : json) (r : ChatResponse) :
  as_ChatResponse body = Some r <-> get "response" body = Some (JString (response r)).
Proof.
  unfold as_ChatResponse. destruct r as [s]. simpl.
  destruct (get "response" body) as [[| | |s'| |]|]; split; intros H;
    try discriminate; by inversion H.
Qed.

(** A body of the declared type holds the file name, if any, under
    [filename]. *)
Lemma as_UploadResponse_filename (body : json) (r : UploadResponse) :
  as_UploadResponse body = Some r -> get "filename" body = JString <$> filename r.
Proof.
  unfold as_UploadResponse.
  destruct (get "message" body) as [[| | |m| |]|]; try discriminate.
  destruct (get "filename" body) as [[| | |f| |]|]; try discriminate;
    intros H; by inversion H.
Qed.

(** C1, as stated, fails: the reply the client is written for,
    [{"response": ...}], is what the chat call returns on an ok response
    and what the page reads its answer from, and it is not an answer with a
    list of sources; a reply of the shape [{answer, sources}] is returned as
    it is, and has no member that the page reads. *)
Lemma chat_reply_is_no_query_result :
  let body :=
    JObject [("response", JString "Based on the documents, the key findings are...")] in
  let query_result :=
    JObject [("answer", JString "The key findings are...");
             ("sources", JArray [JObject [("document_name", JString "paper.pdf");
                                          ("chunk_excerpt", JString "We find that")]])] in
  sendChatMessage_json (Responded true "OK" (Ok body)) = Ok body /\
  as_ChatResponse body
    = Some {| response := "Based on the documents, the key findings are..." |} /\
  Spec.is_QueryResult body = false /\
  sendChatMessage_json (Responded true "OK" (Ok query_result)) = Ok query_result /\
  Spec.is_QueryResult query_result = true /\
  as_ChatResponse query_result = None.
Proof. by repeat split. Qed.

(** C1, amended. The chat call, invoked per chat request, returns the body
    of an ok reply exactly as the server sent it.  The client declares one
    member of it, the answer string [response], and that string is what the
    page appends as the model's message; nothing else of the reply is read,
    so a list of sources in it changes nothing: every reply with the same
    [response] is read as the same result.  A reply of the declared type is
    not an echo of a request, which holds no [response]. *)
Theorem chat_reply_read_as_response (payload : ChatRequest) (out : FetchOutcome json)
    (body : json) (r : ChatResponse) (now_id now_ts : Z) (w : World) :
  sendChatMessage_json out = Ok body ->
  as_ChatResponse body = Some r ->
  (exists statusText,
     out = Responded true statusText (Ok body) /\
     sendChatMessage (Responded true statusText (Ok r)) = Ok r /\
     messages (handleSendMessage_settle payload (Responded true statusText (Ok r))
                                        now_id now_ts w) =
       messages w ++ [{| msg_id := pretty (now_id + 1)%Z; msg_role := model;
                         msg_content := response r; msg_timestamp := now_ts |}]) /\
  get "response" body = Some (JString (response r)) /\
  (forall body' : json,
     get "response" body' = get "response" body -> as_ChatResponse body' = Some r) /\
  (forall request : ChatRequest,
     body <> ChatRequest_json request /\ as_ChatResponse (ChatRequest_json request) = None).
Proof.
  intros Hcall Hview.
  assert (Hget : get "response" body = Some (JString (response r)))
    by by apply as_ChatResponse_Some.
  split; [|split; [done|split]].
  - destruct out as [e|ok statusText [j|e]]; simpl in Hcall;
      [discriminate | | by destruct ok].
    destruct ok; [|discriminate]. simpl in Hcall. inversion Hcall; subst j.
    by exists statusText.
  - intros body' Hsame. apply as_ChatResponse_Some. by rewrite Hsame.
  - intros request. split; [|done].
    intros Hecho. rewrite Hecho in Hget. discriminate.
Qed.

Lemma chat_reply_read_as_response_witness :
  let payload := {| user_query := "What are the key findings?"; history := [] |} in
  let body :=
    JObject [("response", JString "Based on the documents, the key findings are...");
             ("sources", JArray [JObject [("document_name", JString "paper.pdf");
                                          ("chunk_excerpt", JString "We find that")]])] in
  let r := {| response := "Based on the documents, the key findings are..." |} in
  let w := mkWorld [] [] "" true false None ∅ [] None [] ∅ in
  sendChatMessage_json (Responded true "OK" (Ok body)) = Ok body /\
  as_ChatResponse body = Some r /\
  get "response" body = Some (JString (response r)) /\
  as_ChatResponse (JObject [("response", JString (response r))]) = Some r.
Proof.
  intros payload body r w. split; [reflexivity|]. split; [reflexivity|].
  destruct (chat_reply_read_as_response payload (Responded true "OK" (Ok body)) body r 7 8 w)
    as (_ & Hget & Hsame & _); [reflexivity | reflexivity |].
  split; [exact Hget | apply Hsame; reflexivity].
Defined.

(** C5, as stated, fails: neither documented reply of an upload, the one
    the client is written for ([{"message": ..., "filename": ...}]) nor the
    one of the back end (with [chunks_created]), holds a count under
    [chunks_indexed] or a list of failed chunk indices; both are returned
    as they are on an ok response and both are of the type the client
    declares. *)
Lemma upload_reply_is_no_ingest_result :
  let body := JObject [("message", JString "File uploaded successfully");
                       ("filename", JString "document.pdf")] in
  let backend_body :=
    JObject [("message", JString "File 'document.pdf' uploaded and ingested successfully.");
             ("chunks_created", JNumber 42);
             ("file_path", JString "/path/to/file");
             ("statusText", JString "ingestion_complete")] in
  uploadDocument_json (Responded true "OK" (Ok body)) = Ok body /\
  as_UploadResponse body
    = Some {| message := "File uploaded successfully"; filename := Some "document.pdf" |} /\
  Spec.is_IngestResult body = false /\
  uploadDocument_json (Responded true "OK" (Ok backend_body)) = Ok backend_body /\
  as_UploadResponse backend_body
    = Some {| message := "File 'document.pdf' uploaded and ingested successfully.";
              filename := None |} /\
  Spec.is_IngestResult backend_body = false /\
  get "chunks_indexed" backend_body = None /\
  get "failed_chunk_indices" backend_body = None.
Proof. by repeat split. Qed.

(** C5, amended. The upload call returns, for every successfully uploaded
    document, the body of the reply exactly as the server sent it.  The
    client declares a message and an optional file name in it, and the page
    reads the file name only: it becomes the content of the new source (the
    name of the file itself when the reply has none).  Nothing else of the
    reply is read, so a count of chunks or a list of failed chunk indices in
    it changes nothing: every reply of the declared type with the same
    [filename] gives the same list of sources. *)
Theorem upload_reply_read_as_filename (out : FetchOutcome json) (body : json)
    (r : UploadResponse) (id : string) (now : Z) (file : File) (w : World) :
  uploadDocument_json out = Ok body ->
  as_UploadResponse body = Some r ->
  (exists statusText,
     out = Responded true statusText (Ok body) /\
     uploadDocument (Responded true statusText (Ok r)) = Ok r) /\
  get "filename" body = JString <$> filename r /\
  (forall statusText,
     sources (upload_settle (mkUploadEnv (Responded true statusText (Ok r)) id now) file w) =
       sources w ++ [{| src_id := id; src_name := file_name file;
                        src_content := match filename r with
                                       | Some "" | None => file_name file
                                       | Some f => f
                                       end;
                        src_type := match file_type file with
                                    | "" => "application/octet-stream"
                                    | t => t
                                    end;
                        src_size := file_size file; src_uploadDate := now |}]) /\
  (forall (body' : json) (r' : UploadResponse) statusText,
     as_UploadResponse body' = Some r' ->
     get "filename" body' = get "filename" body ->
     sources (upload_settle (mkUploadEnv (Responded true statusText (Ok r')) id now) file w) =
     sources (upload_settle (mkUploadEnv (Responded true statusText (Ok r)) id now) file w)).
Proof.
  intros Hcall Hview.
  assert (Hname : get "filename" body = JString <$> filename r)
    by by apply as_UploadResponse_filename.
  split; [|split; [done|split]].
  - destruct out as [e|ok statusText [j|e]]; simpl in Hcall;
      [discriminate | | by destruct ok].
    destruct ok; [|discriminate]. simpl in Hcall. inversion Hcall; subst j.
    by exists statusText.
  - intros statusText. unfold upload_settle. simpl. unfold newSource, or_else. simpl.
    destruct (filename r) as [[|c f]|], (file_type file); reflexivity.
  - intros body' r' statusText Hview' Hsame.
    apply as_UploadResponse_filename in Hview'.
    rewrite Hsame, Hname in Hview'.
    assert (Heq : filename r' = filename r).
    { destruct (filename r'), (filename r); simpl in Hview'; congruence. }
    unfold upload_settle. simpl. unfold newSource. simpl. by rewrite Heq.
Qed.

Lemma upload_reply_read_as_filename_witness :
  let body :=
    JObject [("message", JString "File 'document.pdf' uploaded and ingested successfully.");
             ("chunks_created", JNumber 42);
             ("file_path", JString "/path/to/file");
             ("statusText", JString "ingestion_complete")] in
  let r := {| message := "File 'document.pdf' uploaded and ingested successfully.";
              filename := None |} in
  let file := mkFile "notes.pdf" "application/pdf" 2048 "Chunks overlap." in
  let w := mkWorld [] [] "" false true None ∅ [] None [] ∅ in
  uploadDocument_json (Responded true "OK" (Ok body)) = Ok body /\
  as_UploadResponse body = Some r /\
  sources (upload_settle (mkUploadEnv (Responded true "OK" (Ok r)) "k3j9x0q1z" 1700000000000)
                         file w) =
    [mkSource "k3j9x0q1z" "notes.pdf" "notes.pdf" "application/pdf" 2048 1700000000000].
Proof.
  intros body r file w. split; [reflexivity|]. split; [reflexivity|].
  destruct (upload_reply_read_as_filename (Responded true "OK" (Ok body)) body r
              "k3j9x0q1z" 1700000000000 file w)
    as (_ & _ & Hs & _); [reflexivity | reflexivity |].
  exact (Hs "OK").
Defined.

(** The request that [resetSources] sends is one the back end takes for a
    full reset. *)
Lemma serve_reset (env : option string) (c : Collection) :
  Backend.serve (BASE_URL env) (resetSources_request env) true c = ∅.
Proof. unfold Backend.serve. simpl. by rewrite String.eqb_refl. Qed.

(** C6, as stated, fails: a reset of a collection of one record and a reset
    of an empty collection return the same thing to the caller, so what is
    returned is not the count of the records cleared. *)
Lemma reset_returns_no_count :
  let w0 := mkWorld [] [] "" false false None ∅ [] None [] ∅ in
  let w1 := mkWorld [] [] "" false false None ∅ [] None []
                    {[ ("notes.pdf", 0) := mkVectorRecord "notes.pdf" "Chunks overlap." ]} in
  let out := Responded true "OK" (Ok tt) in
  size (collection w1) = 1 /\ size (collection w0) = 0 /\
  collection (fst (handleReset true out w1)) = ∅ /\
  snd (handleReset true out w1) = Ok tt /\
  snd (handleReset true out w1) = snd (handleReset true out w0).
Proof.
  intros w0 w1 out. by repeat split.
Qed.

(** C6, amended. The Reset operation sends [DELETE /reset]; once that is
    answered ok the entire vector collection has been cleared, and the call
    returns nothing to its caller, in particular no count of records. *)
Theorem reset_clears_collection (statusText : string) (body : Result unit) (w : World) :
  let w' := fst (handleReset true (Responded true statusText body) w) in
  collection w' = ∅ /\
  snd (handleReset true (Responded true statusText body) w) = Ok tt /\
  resetSources (Responded true statusText body) = Ok tt /\
  requests w' = requests w ++
    [{| method := "DELETE"; url := BASE_URL (NEXT_PUBLIC_BASE_URL w) +:+ "/reset";
        headers := []; body := NoBody |}].
Proof.
  simpl. repeat split. apply serve_reset.
Qed.

(** C10. Once the user has confirmed a reset, the local state is cleared
    whatever the outcome of the backend call: the messages and the sources
    are empty and both localStorage keys are removed, also when
    [resetSources] raises, in which case the error still leaves the handler. *)
Theorem reset_always_clears_local_state (out : FetchOutcome unit) (w : World) :
  let w' := fst (handleReset true out w) in
  messages w' = [] /\
  sources w' = [] /\
  localStorage w' !! STORAGE_KEY_MESSAGES = None /\
  localStorage w' !! STORAGE_KEY_SOURCES = None /\
  snd (handleReset true out w) = resetSources out.
Proof.
  simpl. repeat split.
  - rewrite lookup_delete_ne by done. apply lookup_delete_eq.
  - apply lookup_delete_eq.
Qed.

(** The persistence effects that follow the render write both keys again,
    each holding the empty list. *)
Lemma reset_then_persist (out : FetchOutcome unit) (w : World) :
  let w' := persist (fst (handleReset true out w)) in
  localStorage w' !! STORAGE_KEY_MESSAGES = Some (JArray []) /\
  localStorage w' !! STORAGE_KEY_SOURCES = Some (JArray []).
Proof.
  simpl. split.
  - rewrite lookup_insert_ne by done. apply lookup_insert_eq.
  - apply lookup_insert_eq.
Qed.

(** ** What reaches the collection *)

Lemma keeps_records_refl (c : Collection) : keeps_records c c.
Proof. by intros k. Qed.

Lemma keeps_records_trans (c1 c2 c3 : Collection) :
  keeps_records c1 c2 -> keeps_records c2 c3 -> keeps_records c1 c3.
Proof. intros H12 H23 k Hk. by apply H23, H12. Qed.

Lemma foldl_keeps_records {B : Type} (f : Collection -> B -> Collection) (l : list B) :
  (forall c b, keeps_records c (f c b)) ->
  forall c, keeps_records c (foldl f c l).
Proof.
  intros Hf. induction l as [|b l IH]; intros c; simpl.
  - apply keeps_records_refl.
  - eapply keeps_records_trans; [apply Hf | apply IH].
Qed.

Lemma Ingest_keeps_records (document_id raw_text : string) (c : Collection) :
  keeps_records c (Backend.Ingest document_id raw_text c).
Proof.
  unfold Backend.Ingest. apply foldl_keeps_records.
  intros c' ch k Hk. unfold Backend.upsert_chunk.
  apply lookup_insert_is_Some'. by right.
Qed.

(** Only a [DELETE] removes records. *)
Lemma serve_keeps_records (base : string) (req : Request) (ok : bool) (c : Collection) :
  method req <> "DELETE" ->
  keeps_records c (Backend.serve base req ok c).
Proof.
  intros Hm. unfold Backend.serve.
  destruct (negb ok); [apply keeps_records_refl|].
  apply String.eqb_neq in Hm. rewrite Hm. simpl.
  destruct (_ && _); [|apply keeps_records_refl].
  destruct (body req); try apply keeps_records_refl.
  unfold Backend.ingest_fields. apply foldl_keeps_records.
  intros c' f. apply Ingest_keeps_records.
Qed.

Lemma grows_refl (w : World) : grows w w.
Proof.
  split; [done | | apply keeps_records_refl].
  exists []. by rewrite app_nil_r.
Qed.

Lemma grows_trans (w1 w2 w3 : World) : grows w1 w2 -> grows w2 w3 -> grows w1 w3.
Proof.
  intros [He1 (n1 & Hr1 & Hn1) Hc1] [He2 (n2 & Hr2 & Hn2) Hc2]. split.
  - congruence.
  - exists (n1 ++ n2). split; [by rewrite Hr2, Hr1, app_assoc|].
    by apply Forall_app.
  - by eapply keeps_records_trans.
Qed.

Lemma foldl_grows {B : Type} (f : World -> B -> World) (l : list B) :
  (forall w b, grows w (f w b)) ->
  forall w, grows w (foldl f w l).
Proof.
  intros Hf. induction l as [|b l IH]; intros w; simpl.
  - apply grows_refl.
  - eapply grows_trans; [apply Hf | apply IH].
Qed.

Lemma fetch_grows (req : Request) (w : World) :
  method req <> "DELETE" -> grows w (fetch req w).
Proof.
  intros Hm. split; simpl; [done | | apply keeps_records_refl].
  exists [req]. split; [done|]. by constructor.
Qed.

Lemma settled_grows {T : Type} (req : Request) (out : FetchOutcome T) (w : World) :
  method req <> "DELETE" -> grows w (settled req out w).
Proof.
  intros Hm. split; simpl; [done | | by apply serve_keeps_records].
  exists []. by rewrite app_nil_r.
Qed.

Lemma setters_grow (w w' : World) :
  NEXT_PUBLIC_BASE_URL w' = NEXT_PUBLIC_BASE_URL w ->
  requests w' = requests w ->
  collection w' = collection w ->
  grows w w'.
Proof.
  intros He Hr Hc. split; [done | |].
  - exists []. by rewrite app_nil_r.
  - rewrite Hc. apply keeps_records_refl.
Qed.

Lemma upload_settle_grows (e : UploadEnv) (file : File) (w : World) :
  grows w (upload_settle e file w).
Proof.
  unfold upload_settle.
  apply grows_trans with
    (settled (uploadDocument_request (NEXT_PUBLIC_BASE_URL w) file) (upload_outcome e) w);
    [by apply settled_grows|].
  destruct (uploadDocument _); by apply setters_grow.
Qed.

Lemma handleSendMessage_send_grows (now_id now_ts : Z) (w w' : World) (req : ChatRequest) :
  handleSendMessage_send now_id now_ts w = Some (req, w') -> grows w w'.
Proof.
  intros H. apply handleSendMessage_send_Some in H as (_ & _ & ->).
  eapply grows_trans; [|by apply fetch_grows]. by apply setters_grow.
Qed.

Lemma handleSendMessage_settle_grows (req : ChatRequest) (out : FetchOutcome ChatResponse)
    (now_id now_ts : Z) (w : World) :
  grows w (handleSendMessage_settle req out now_id now_ts w).
Proof.
  unfold handleSendMessage_settle.
  apply grows_trans with
    (settled (sendChatMessage_request (NEXT_PUBLIC_BASE_URL w) req) out w);
    [by apply settled_grows|].
  destruct (sendChatMessage out); by apply setters_grow.
Qed.

Lemma handleSendMessage_grows (e : SendEnv) (w : World) : grows w (handleSendMessage e w).
Proof.
  unfold handleSendMessage.
  destruct (handleSendMessage_send _ _ w) as [[req w1]|] eqn:Hsend; [|apply grows_refl].
  eapply grows_trans; [by eapply handleSendMessage_send_grows|].
  apply grows_trans with (persist_messages w1); [by apply setters_grow|].
  apply handleSendMessage_settle_grows.
Qed.

Lemma upload_start_grows (files : list File) (w : World) : grows w (upload_start files w).
Proof.
  unfold upload_start.
  apply grows_trans with (setUploadStatus None (setIsUploading true w));
    [by apply setters_grow|].
  apply foldl_grows. intros w' f. by apply fetch_grows.
Qed.

Lemma upload_settle_all_grows (files : list File) (env : nat -> UploadEnv)
    (order : list nat) (w : World) :
  grows w (upload_settle_all files env order w).
Proof.
  unfold upload_settle_all. apply foldl_grows. intros w' i.
  destruct (files !! i) as [file|]; [|apply grows_refl].
  unfold upload_settled. destruct (is_ok _); [|apply upload_settle_grows].
  eapply grows_trans; [apply upload_settle_grows | by apply setters_grow].
Qed.

Lemma handleFileUpload_grows (files : option (list File)) (env : nat -> UploadEnv)
    (order : list nat) (w : World) :
  grows w (fst (handleFileUpload files env order w)).
Proof.
  destruct files as [files|]; simpl; [|apply grows_refl].
  assert (grows w (upload_settle_all files env order (upload_start files w))) as Hsettled.
  { eapply grows_trans; [apply upload_start_grows | apply upload_settle_all_grows]. }
  destruct (is_schedule (length files) order); simpl; [|done].
  eapply grows_trans; [exact Hsettled | by apply setters_grow].
Qed.

(** C7. Nothing but a confirmed full reset deletes from the retrieval
    core: removing a single source by id sends no request and changes
    nothing but the page's own list of sources, which loses exactly the
    sources with that id, so the vector collection is as it was; and any
    other operation of the page that is not a confirmed reset sends no
    [DELETE] request and leaves every record of the collection in place. *)
Theorem only_reset_deletes (id : string) (op : Operation) (w : World) :
  is_confirmed_reset op = false ->
  (requests (handleRemoveSource id w) = requests w /\
   collection (handleRemoveSource id w) = collection w /\
   (forall s, In s (sources (handleRemoveSource id w)) <-> In s (sources w) /\ src_id s <> id) /\
   messages (handleRemoveSource id w) = messages w /\
   localStorage (handleRemoveSource id w) = localStorage w /\
   console (handleRemoveSource id w) = console w /\
   (inputValue (handleRemoveSource id w), isTyping (handleRemoveSource id w),
    isUploading (handleRemoveSource id w), uploadStatus (handleRemoveSource id w))
   = (inputValue w, isTyping w, isUploading w, uploadStatus w)) /\
  (exists new, requests (run op w) = requests w ++ new /\
               Forall (fun r => method r <> "DELETE") new) /\
  (forall k, is_Some (collection w !! k) -> is_Some (collection (run op w) !! k)).
Proof.
  intros Hop. split.
  - simpl. split; [done|]. split; [done|]. split; [|done].
    intros s. rewrite filter_In, negb_true_iff. by rewrite String.eqb_neq.
  - assert (grows w (run op w)) as [_ Hreq Hcol]; [|by split].
    destruct op as [v|e|files env order|id'|confirmed out]; simpl in *.
    + by apply setters_grow.
    + apply handleSendMessage_grows.
    + apply handleFileUpload_grows.
    + by apply setters_grow.
    + subst confirmed. apply grows_refl.
Qed.

Lemma only_reset_deletes_witness :
  let record := mkVectorRecord "notes.pdf" "Chunks overlap." in
  let source := mkSource "k3j9x0q1z" "notes.pdf" "notes.pdf" "application/pdf" 2048 5%Z in
  let w := mkWorld [] [source] "" false false None ∅ [] None []
                   {[ ("notes.pdf", 0) := record ]} in
  is_confirmed_reset (RemoveSource "k3j9x0q1z") = false /\
  requests (handleRemoveSource "k3j9x0q1z" w) = [] /\
  collection (handleRemoveSource "k3j9x0q1z" w) = {[ ("notes.pdf", 0) := record ]} /\
  sources (handleRemoveSource "k3j9x0q1z" w) = [].
Proof.
  intros record source w. split; [reflexivity|].
  destruct (only_reset_deletes "k3j9x0q1z" (RemoveSource "k3j9x0q1z") w)
    as ((Hr & Hc & _) & _); [reflexivity|].
  split; [exact Hr|]. split; [exact Hc | reflexivity].
Defined.

(** ** Uploading a batch of files *)

Lemma upload_start_requests (files : list File) :
  forall w,
    let w' := foldl (fun w file => fetch (uploadDocument_request (NEXT_PUBLIC_BASE_URL w) file) w)
                    w files in
    requests w' = requests w ++ map (uploadDocument_request (NEXT_PUBLIC_BASE_URL w)) files /\
    sources w' = sources w /\ console w' = console w.
Proof.
  induction files as [|f files IH]; intros w; simpl.
  - by rewrite app_nil_r.
  - destruct (IH (fetch (uploadDocument_request (NEXT_PUBLIC_BASE_URL w) f) w))
      as (Hr & Hs & Hc).
    simpl in *. rewrite Hr, Hs, Hc. by rewrite <- app_assoc.
Qed.

Lemma upload_settle_local (e : UploadEnv) (file : File) (w : World) :
  requests (upload_settle e file w) = requests w /\
  NEXT_PUBLIC_BASE_URL (upload_settle e file w) = NEXT_PUBLIC_BASE_URL w /\
  sources w `prefix_of` sources (upload_settle e file w) /\
  console w `prefix_of` console (upload_settle e file w).
Proof.
  unfold upload_settle. destruct (uploadDocument _); simpl; repeat split;
    try done; by apply prefix_app_r.
Qed.

(** The effect that follows a successful upload writes localStorage only. *)
Lemma upload_settled_fields (e : UploadEnv) (file : File) (w : World) :
  requests (upload_settled e file w) = requests (upload_settle e file w) /\
  sources (upload_settled e file w) = sources (upload_settle e file w) /\
  console (upload_settled e file w) = console (upload_settle e file w).
Proof. unfold upload_settled. by destruct (is_ok _). Qed.

Lemma upload_settle_all_local (files : list File) (env : nat -> UploadEnv) (order : list nat) :
  forall w,
    requests (upload_settle_all files env order w) = requests w /\
    sources w `prefix_of` sources (upload_settle_all files env order w) /\
    console w `prefix_of` console (upload_settle_all files env order w).
Proof.
  induction order as [|i order IH]; intros w; simpl; [done|].
  destruct (files !! i) as [file|]; [|apply IH].
  destruct (IH (upload_settled (env i) file w)) as (Hr & Hs & Hc).
  destruct (upload_settle_local (env i) file w) as (Hr' & _ & Hs' & Hc').
  destruct (upload_settled_fields (env i) file w) as (Er & Es & Ec).
  rewrite Er in Hr. rewrite Es in Hs. rewrite Ec in Hc.
  unfold upload_settle_all in *. rewrite Hr, Hr'.
  split; [done|]. split; by etrans.
Qed.

(** What the settling of one file's request tells about that file. *)
Lemma upload_settle_told (e : UploadEnv) (file : File) (w : World) :
  match uploadDocument (upload_outcome e) with
  | Ok response => newSource e file response ∈ sources (upload_settle e file w)
  | Throw error =>
      ["Failed to upload " +:+ file_name file +:+ ":"; error] ∈ console (upload_settle e file w)
  end.
Proof.
  unfold upload_settle. destruct (uploadDocument _); simpl;
    apply elem_of_app; right; by apply list_elem_of_singleton.
Qed.

Lemma upload_settle_all_told (files : list File) (env : nat -> UploadEnv)
    (i : nat) (file : File) (order : list nat) :
  In i order ->
  files !! i = Some file ->
  forall w,
    match uploadDocument (upload_outcome (env i)) with
    | Ok response =>
        newSource (env i) file response ∈ sources (upload_settle_all files env order w)
    | Throw error =>
        ["Failed to upload " +:+ file_name file +:+ ":"; error]
          ∈ console (upload_settle_all files env order w)
    end.
Proof.
  intros Hin Hfile.
  induction order as [|j order IH]; intros w; [done|].
  destruct (decide (j = i)) as [->|Hne].
  - simpl. rewrite Hfile.
    pose proof (upload_settle_told (env i) file w) as Htold.
    destruct (upload_settle_all_local files env order (upload_settled (env i) file w))
      as (_ & Hs & Hc).
    destruct (upload_settled_fields (env i) file w) as (_ & Es & Ec).
    rewrite Es in Hs. rewrite Ec in Hc.
    unfold upload_settle_all in *.
    destruct (uploadDocument _); by eapply elem_of_prefix.
  - destruct Hin as [->|Hin]; [done|]. apply (IH Hin).
Qed.

Lemma is_schedule_In (n : nat) (order : list nat) (i : nat) :
  is_schedule n order = true -> i < n -> In i order.
Proof.
  unfold is_schedule. intros H Hi. apply andb_true_iff in H as [_ H].
  rewrite forallb_forall in H. specialize (H i).
  rewrite existsb_exists in H. destruct H as (j & Hj & Heq).
  - apply in_seq. lia.
  - apply Nat.eqb_eq in Heq. by subst.
Qed.

(** C3. When a batch of files is uploaded, a request is sent for every
    file whatever becomes of the others, and in whatever order the requests
    complete the caller is told about each file: the results hold, at the
    file's position, its name and whether its upload succeeded; a file that
    succeeded is among the sources, and a file that failed is named in an
    error on the console. *)
Theorem upload_batch_per_file (files : list File) (env : nat -> UploadEnv)
    (order : list nat) (w : World) :
  is_schedule (length files) order = true ->
  let w' := fst (handleFileUpload (Some files) env order w) in
  let results := snd (handleFileUpload (Some files) env order w) in
  requests w' = requests w ++ map (uploadDocument_request (NEXT_PUBLIC_BASE_URL w)) files /\
  length results = length files /\
  forall i file,
    files !! i = Some file ->
    results !! i = Some {| success := is_ok (uploadDocument (upload_outcome (env i)));
                           name := file_name file |} /\
    match uploadDocument (upload_outcome (env i)) with
    | Ok response => newSource (env i) file response ∈ sources w'
    | Throw error => ["Failed to upload " +:+ file_name file +:+ ":"; error] ∈ console w'
    end.
Proof.
  intros Hsched. unfold handleFileUpload. rewrite Hsched. simpl. split; [|split].
  - destruct (upload_settle_all_local files env order (upload_start files w)) as (-> & _).
    unfold upload_start.
    by destruct (upload_start_requests files (setUploadStatus None (setIsUploading true w)))
      as (-> & _).
  - unfold upload_results. apply length_imap.
  - intros i file Hfile. split.
    + unfold upload_results. by rewrite list_lookup_imap, Hfile.
    + apply upload_settle_all_told; [|done].
      eapply is_schedule_In; [done|]. by eapply lookup_lt_Some.
Qed.

Lemma upload_batch_per_file_witness :
  let broken := mkFile "scan.pdf" "application/pdf" 4096 "" in
  let notes := mkFile "notes.txt" "text/plain" 15 "Chunks overlap." in
  let reply := {| message := "File uploaded successfully"; filename := Some "notes.txt" |} in
  let env := fun i =>
    match i with
    | 0 => mkUploadEnv (Responded false "Internal Server Error" (Throw "no body")) "a1b2c3d4e" 10%Z
    | _ => mkUploadEnv (Responded true "OK" (Ok reply)) "f5g6h7i8j" 11%Z
    end in
  let w := mkWorld [] [] "" false false None ∅ [] None [] ∅ in
  let done := handleFileUpload (Some [broken; notes]) env [1; 0] w in
  is_schedule 2 [1; 0] = true /\
  snd done !! 1 = Some {| success := true; name := "notes.txt" |} /\
  newSource (env 1) notes reply ∈ sources (fst done) /\
  snd done !! 0 = Some {| success := false; name := "scan.pdf" |} /\
  ["Failed to upload scan.pdf:"; "Upload API error: Internal Server Error"] ∈ console (fst done).
Proof.
  intros broken notes reply env w done. split; [reflexivity|].
  destruct (upload_batch_per_file [broken; notes] env [1; 0] w) as (_ & _ & Hfile);
    [reflexivity|].
  destruct (Hfile 1 notes eq_refl) as [Hres1 Htold1].
  destruct (Hfile 0 broken eq_refl) as [Hres0 Htold0].
  split; [exact Hres1|]. split; [exact Htold1|]. split; [exact Hres0 | exact Htold0].
Defined.

(** * Further properties of the client *)

Import Effects SourceCard ChatArea.

(** ** The three calls of [api.ts] *)

(** X1. [sendChatMessage] and [uploadDocument] return a value exactly when
    the response was ok and its body could be read, and the value is that
    body. *)
Theorem json_calls_return_the_ok_body :
  (forall out r, sendChatMessage out = Ok r <-> exists st, out = Responded true st (Ok r)) /\
  (forall out r, uploadDocument out = Ok r <-> exists st, out = Responded true st (Ok r)).
Proof.
  split; intros out r; (split; [|by intros (st & ->)]).
  - destruct out as [e|[] st [r'|e]]; simpl; intros H; simplify_eq. by exists st.
  - destruct out as [e|[] st [r'|e]]; simpl; intros H; simplify_eq. by exists st.
Qed.

(** X2. What [uploadDocument] throws: the error of a rejected [fetch] as it
    is, "Upload API error: " and the status text for a non-ok response
    whatever its body, and the error of an unreadable body of an ok
    response as it is. *)
Theorem uploadDocument_throws (out : FetchOutcome UploadResponse) (e : string) :
  uploadDocument out = Throw e <->
  out = Rejected e \/
  (exists st b, out = Responded false st b /\ e = "Upload API error: " +:+ st) \/
  (exists st, out = Responded true st (Throw e)).
Proof.
  split.
  - destruct out as [e'|[] st [r|e']]; simpl; intros H; simplify_eq; eauto 6.
  - intros [->|[(st & b & -> & ->)|(st & ->)]]; done.
Qed.

(** X3. [resetSources] never reads the body: it succeeds exactly when the
    response was ok, also when the body of that response is unreadable. *)
Theorem resetSources_ok_iff (out : FetchOutcome unit) :
  (resetSources out = Ok tt <-> answered_ok out = true) /\
  (forall ok st b1 b2, resetSources (Responded ok st b1) = resetSources (Responded ok st b2)).
Proof.
  split; [|done].
  destruct out as [e|[] st b]; simpl; split; intros H; by simplify_eq.
Qed.

(** ** Blank input *)

Lemma string_length_app (a b : string) :
  String.length (a +:+ b) = String.length a + String.length b.
Proof. induction a as [|c a IH]; [done|]. simpl. by rewrite <- IH. Qed.

Lemma strip_prefix_Some (p : string) :
  forall s r, strip_prefix p s = Some r -> s = p +:+ r.
Proof.
  induction p as [|a p IH]; intros s r; simpl.
  - by intros [= ->].
  - destruct s as [|b s]; [done|].
    destruct (Ascii.eqb_spec a b) as [->|]; [|done].
    intros H. by rewrite (IH _ _ H).
Qed.

Lemma first_stripped_Some (table : list string) (s r : string) :
  first_stripped table s = Some r -> exists p, In p table /\ s = p +:+ r.
Proof.
  induction table as [|p table IH]; simpl; [done|].
  destruct (strip_prefix p s) as [r'|] eqn:Hp.
  - intros [= ->]. exists p. split; [by left | by apply strip_prefix_Some].
  - intros H. destruct (IH H) as (p' & Hin & Hs). exists p'. split; [by right | done].
Qed.

Lemma white_space_not_empty : Forall (fun p => p <> "") white_space.
Proof.
  set (l := white_space). vm_compute in l. subst l.
  repeat (apply List.Forall_cons; [discriminate|]). apply List.Forall_nil.
Qed.

Lemma white_prefix_Some (s r : string) :
  white_prefix s = Some r ->
  (exists p, In p white_space /\ s = p +:+ r) /\ String.length r < String.length s.
Proof.
  intros H. apply first_stripped_Some in H as (p & Hin & ->).
  split; [by exists p|].
  pose proof white_space_not_empty as Hne. rewrite Forall_forall in Hne.
  apply list_elem_of_In, Hne in Hin. rewrite string_length_app.
  destruct p; [done|]. simpl. lia.
Qed.

(** No white space character is the beginning of another one. *)
Lemma white_prefix_app (p r : string) :
  In p white_space -> white_prefix (p +:+ r) = Some r.
Proof.
  intros Hin. revert r.
  assert (Forall (fun p => forall r, white_prefix (p +:+ r) = Some r) white_space) as Hall.
  { set (l := white_space). vm_compute in l. subst l.
    repeat (apply List.Forall_cons; [intros r; vm_compute; reflexivity|]). apply List.Forall_nil. }
  rewrite Forall_forall in Hall. by apply Hall, list_elem_of_In.
Qed.

Lemma white_prefix_empty : white_prefix "" = None.
Proof. reflexivity. Qed.

Lemma trimStart_from_fuel (f1 : nat) :
  forall f2 s, String.length s <= f1 -> String.length s <= f2 ->
               trimStart_from f1 s = trimStart_from f2 s.
Proof.
  induction f1 as [|f1 IH]; intros f2 s H1 H2.
  - destruct s; [|simpl in H1; lia]. by destruct f2.
  - destruct f2 as [|f2].
    + by destruct s; [|simpl in H2; lia].
    + simpl. destruct (white_prefix s) as [r|] eqn:Hr; [|done].
      apply white_prefix_Some in Hr as [_ Hlen]. apply IH; lia.
Qed.

Lemma trimStart_step (s r : string) : white_prefix s = Some r -> trimStart s = trimStart r.
Proof.
  intros H. pose proof (white_prefix_Some _ _ H) as [_ Hlen]. unfold trimStart.
  destruct (String.length s) as [|n] eqn:Hn; [lia|]. simpl. rewrite H.
  apply trimStart_from_fuel; lia.
Qed.

Lemma trimStart_stop (s : string) : white_prefix s = None -> trimStart s = s.
Proof. intros H. unfold trimStart. destruct (String.length s); simpl; by rewrite ?H. Qed.

(** What is left by [trimStart] does not begin with white space. *)
Lemma trimStart_no_prefix (s : string) : white_prefix (trimStart s) = None.
Proof.
  remember (String.length s) as n eqn:Hn. revert s Hn.
  induction n as [n IH] using lt_wf_ind. intros s Hn.
  destruct (white_prefix s) as [r|] eqn:Hr.
  - rewrite (trimStart_step _ _ Hr). apply white_prefix_Some in Hr as [_ Hlen].
    apply (IH (String.length r)); [lia | done].
  - by rewrite (trimStart_stop _ Hr).
Qed.

(** [trimStart] leaves nothing exactly of a sequence of white space
    characters. *)
Lemma trimStart_empty_iff (s : string) :
  trimStart s = "" <->
  exists l, Forall (fun p => In p white_space) l /\ s = foldr String.append "" l.
Proof.
  split.
  - remember (String.length s) as n eqn:Hn. revert s Hn.
    induction n as [n IH] using lt_wf_ind. intros s Hn Hs.
    destruct (white_prefix s) as [r|] eqn:Hr.
    + rewrite (trimStart_step _ _ Hr) in Hs.
      apply white_prefix_Some in Hr as [(p & Hin & ->) Hlen].
      destruct (IH (String.length r) ltac:(lia) r eq_refl Hs) as (l & Hl & ->).
      exists (p :: l). split; [by constructor | done].
    + rewrite (trimStart_stop _ Hr) in Hs. subst s. by exists [].
  - intros (l & Hl & ->). induction Hl as [|p l Hp _ IH]; [done|].
    simpl. by rewrite (trimStart_step _ _ (white_prefix_app p _ Hp)).
Qed.

Lemma trimEnd_empty_iff (t : string) : trimEnd t = "" <-> trimStart t = "".
Proof.
  destruct t as [|c t]; [done|]. simpl. unfold is_blank.
  destruct (String.eqb_spec (trimStart (String c t)) "") as [->|Hne]; [done|].
  split; [discriminate | done].
Qed.

(** The trimmed string is empty exactly when the string is a sequence of
    white space characters. *)
Lemma trim_empty_iff (s : string) :
  trim s = "" <->
  exists l, Forall (fun p => In p white_space) l /\ s = foldr String.append "" l.
Proof.
  unfold trim. rewrite trimEnd_empty_iff.
  rewrite (trimStart_stop _ (trimStart_no_prefix s)). apply trimStart_empty_iff.
Qed.

(** [trim] on a text with white space of one, two and three bytes at both
    ends and inside. *)
Example trim_example :
  trim (utf8 0x9 +:+ utf8 0xA0 +:+ "a" +:+ utf8 0x3000 +:+ "b" +:+ utf8 0x2028 +:+ " ")
  = "a" +:+ utf8 0x3000 +:+ "b".
Proof. reflexivity. Qed.

(** X4. A send does nothing at all (no message, no request, no change of
    the page) exactly when the input is a sequence of white space
    characters, those beyond ASCII included; the empty input is one such. *)
Theorem blank_input_sends_nothing (e : SendEnv) (w : World) :
  (handleSendMessage_send (user_now_id e) (user_now_ts e) w = None <->
   exists l, Forall (fun p => In p white_space) l /\
             inputValue w = foldr String.append "" l) /\
  ((exists l, Forall (fun p => In p white_space) l /\
              inputValue w = foldr String.append "" l) ->
   handleSendMessage e w = w).
Proof.
  assert (handleSendMessage_send (user_now_id e) (user_now_ts e) w = None <->
          exists l, Forall (fun p => In p white_space) l /\
                    inputValue w = foldr String.append "" l) as Hiff.
  { rewrite <- trim_empty_iff. unfold handleSendMessage_send.
    destruct (String.eqb_spec (trim (inputValue w)) "") as [Hb|Hb]; [done|].
    split; [discriminate | done]. }
  split; [exact Hiff|].
  intros H. apply Hiff in H. unfold handleSendMessage. by rewrite H.
Qed.

Lemma blank_input_sends_nothing_witness :
  let e := mkSendEnv 1 1 (Responded true "OK" (Ok (mkChatResponse "unused"))) 2 2 in
  let blanks := [utf8 0x20; utf8 0xA0; utf8 0x9; utf8 0x3000] in
  let w := mkWorld [] [] (foldr String.append "" blanks) false false None ∅ [] None [] ∅ in
  (exists l, Forall (fun p => In p white_space) l /\
             inputValue w = foldr String.append "" l) /\
  handleSendMessage e w = w.
Proof.
  intros e blanks w.
  assert (exists l, Forall (fun p => In p white_space) l /\
                    inputValue w = foldr String.append "" l) as H.
  { exists blanks. split; [|reflexivity].
    repeat (apply List.Forall_cons; [vm_compute; tauto|]). apply List.Forall_nil. }
  split; [exact H | exact (proj2 (blank_input_sends_nothing e w) H)].
Defined.

(** ** Sends, one after another *)

(** What the page shows as the reply of a send. *)
Lemma settle_messages (req : ChatRequest) (out : FetchOutcome ChatResponse)
    (now_id now_ts : Z) (w : World) :
  messages (handleSendMessage_settle req out now_id now_ts w) =
  messages w ++
    [{| msg_id := pretty (now_id + 1)%Z; msg_role := model;
        msg_content := match sendChatMessage out with
                       | Ok r => response r
                       | Throw _ => fallback_text
                       end;
        msg_timestamp := now_ts |}].
Proof. unfold handleSendMessage_settle. by destruct (sendChatMessage out). Qed.

Lemma not_blank_sends (now_id now_ts : Z) (w : World) :
  trim (inputValue w) <> "" ->
  handleSendMessage_send now_id now_ts w =
    Some ({| user_query := inputValue w; history := map to_history (messages w) |},
          fetch (sendChatMessage_request (NEXT_PUBLIC_BASE_URL w)
                   {| user_query := inputValue w; history := map to_history (messages w) |})
            (setIsTyping true (setInputValue ""
               (setMessages (messages w ++
                  [{| msg_id := pretty now_id; msg_role := USER;
                      msg_content := inputValue w; msg_timestamp := now_ts |}]) w)))).
Proof.
  intros H. apply String.eqb_neq in H. unfold handleSendMessage_send. by rewrite H.
Qed.

Lemma handleSendMessage_messages (e : SendEnv) (w : World) :
  trim (inputValue w) <> "" ->
  messages (handleSendMessage e w) = messages w ++
    [{| msg_id := pretty (user_now_id e); msg_role := USER;
        msg_content := inputValue w; msg_timestamp := user_now_ts e |};
     {| msg_id := pretty (reply_now_id e + 1)%Z; msg_role := model;
        msg_content := match sendChatMessage (chat_outcome e) with
                       | Ok r => response r
                       | Throw _ => fallback_text
                       end;
        msg_timestamp := reply_now_ts e |}].
Proof.
  intros Hink. unfold handleSendMessage.
  rewrite (not_blank_sends _ _ _ Hink). cbv beta iota.
  rewrite settle_messages. simpl. by rewrite <- app_assoc.
Qed.

(** X5. A send of a non-blank input, whether the call succeeds or fails,
    adds exactly two messages: the user's, holding the input as typed, and
    the model's, holding the answer or else the fallback text; it sends one
    request, empties the input and ends with the typing indicator off. *)
Theorem send_adds_question_and_reply (e : SendEnv) (w : World) :
  trim (inputValue w) <> "" ->
  let w' := handleSendMessage e w in
  messages w' = messages w ++
    [{| msg_id := pretty (user_now_id e); msg_role := USER;
        msg_content := inputValue w; msg_timestamp := user_now_ts e |};
     {| msg_id := pretty (reply_now_id e + 1)%Z; msg_role := model;
        msg_content := match sendChatMessage (chat_outcome e) with
                       | Ok r => response r
                       | Throw _ => fallback_text
                       end;
        msg_timestamp := reply_now_ts e |}] /\
  length (requests w') = S (length (requests w)) /\
  inputValue w' = "" /\
  isTyping w' = false.
Proof.
  intros Hink. split; [by apply handleSendMessage_messages|].
  unfold handleSendMessage. rewrite (not_blank_sends _ _ _ Hink). cbv beta iota.
  unfold handleSendMessage_settle.
  destruct (sendChatMessage (chat_outcome e)); simpl; rewrite length_app; simpl;
    repeat split; lia.
Qed.

Lemma send_adds_question_and_reply_witness :
  let e := mkSendEnv 5 6 (Rejected "Failed to fetch") 7 8 in
  let w := mkWorld [] [] "What is a chunk?" false false None ∅ [] None [] ∅ in
  trim (inputValue w) <> "" /\
  messages (handleSendMessage e w) =
    [mkMessage "5" USER "What is a chunk?" 6; mkMessage "8" model fallback_text 8] /\
  isTyping (handleSendMessage e w) = false.
Proof.
  intros e w. split; [discriminate|].
  destruct (send_adds_question_and_reply e w) as (Hm & _ & _ & Ht); [discriminate|].
  split; [exact Hm | exact Ht].
Defined.

(** X6. A send never touches the sources, the upload indicator and
    status, or any key of localStorage other than the key of the messages;
    when the handler returns that key holds the conversation up to the
    user's question, written by the effect of the render that shows it,
    and the effect of the render that follows holds the reply too. *)
Theorem send_leaves_sources_and_storage (e : SendEnv) (w : World) :
  let w' := handleSendMessage e w in
  sources w' = sources w /\
  isUploading w' = isUploading w /\
  uploadStatus w' = uploadStatus w /\
  (forall k, k <> STORAGE_KEY_MESSAGES -> localStorage w' !! k = localStorage w !! k) /\
  (trim (inputValue w) <> "" ->
   localStorage w' !! STORAGE_KEY_MESSAGES =
     Some (JArray (map Message_json (removelast (messages w')))) /\
   localStorage (persist_messages w') !! STORAGE_KEY_MESSAGES =
     Some (JArray (map Message_json (messages w')))).
Proof.
  unfold handleSendMessage.
  destruct (String.eqb_spec (trim (inputValue w)) "") as [Hblank|Hink].
  - unfold handleSendMessage_send. rewrite Hblank. simpl. by repeat split.
  - rewrite (not_blank_sends _ _ _ Hink). cbv beta iota zeta.
    unfold handleSendMessage_settle.
    destruct (sendChatMessage (chat_outcome e)); simpl; (repeat split; try done);
      first [ by intros k Hk; rewrite lookup_insert_ne
            | by rewrite removelast_last, lookup_insert_eq
            | by rewrite lookup_insert_eq ].
Qed.

Lemma send_leaves_sources_and_storage_witness :
  let e := mkSendEnv 5 6 (Responded true "OK" (Ok (mkChatResponse "A slice."))) 7 8 in
  let w := mkWorld [] [] "What is a chunk?" false false None ∅ [] None [] ∅ in
  trim (inputValue w) <> "" /\
  localStorage (handleSendMessage e w) !! STORAGE_KEY_MESSAGES =
    Some (JArray [Message_json (mkMessage "5" USER "What is a chunk?" 6)]) /\
  localStorage (persist_messages (handleSendMessage e w)) !! STORAGE_KEY_MESSAGES =
    Some (JArray [Message_json (mkMessage "5" USER "What is a chunk?" 6);
                  Message_json (mkMessage "8" model "A slice." 8)]).
Proof.
  intros e w. split; [discriminate|].
  destruct (send_leaves_sources_and_storage e w) as (_ & _ & _ & _ & H).
  exact (H ltac:(discriminate)).
Defined.

(** X7. The conversation carries over: after a completed send, the history
    of the next request is the history of the one before it followed by
    that question as a user turn and by what the page showed as its reply
    as a model turn, the fallback text included when the call had failed. *)
Theorem next_request_carries_the_exchange (e : SendEnv) (w : World)
    (next : string) (now_id now_ts : Z) :
  trim (inputValue w) <> "" ->
  trim next <> "" ->
  exists req w',
    handleSendMessage_send now_id now_ts (setInputValue next (handleSendMessage e w))
      = Some (req, w') /\
    user_query req = next /\
    history req =
      map to_history (messages w) ++
      [{| role := "user"; parts := [inputValue w] |};
       {| role := "model";
          parts := [match sendChatMessage (chat_outcome e) with
                    | Ok r => response r
                    | Throw _ => fallback_text
                    end] |}].
Proof.
  intros Hink Hnext.
  pose proof (handleSendMessage_messages e w Hink) as Hm.
  eexists _, _. split; [by apply not_blank_sends|]. simpl. split; [done|].
  rewrite Hm, map_app. done.
Qed.

Lemma next_request_carries_the_exchange_witness :
  let e := mkSendEnv 5 6 (Responded false "Bad Gateway" (Throw "no body")) 7 8 in
  let w := mkWorld [] [] "What is a chunk?" false false None ∅ [] None [] ∅ in
  trim (inputValue w) <> "" /\ trim "And an embedding?" <> "" /\
  exists req w',
    handleSendMessage_send 9 9 (setInputValue "And an embedding?" (handleSendMessage e w))
      = Some (req, w') /\
    history req = [mkMessageHistoryItem "user" ["What is a chunk?"];
                   mkMessageHistoryItem "model" [fallback_text]].
Proof.
  intros e w. split; [discriminate|]. split; [discriminate|].
  destruct (next_request_carries_the_exchange e w "And an embedding?" 9 9)
    as (req & w' & Hs & _ & Hh); [discriminate | discriminate |].
  exists req, w'. split; [exact Hs | exact Hh].
Defined.

(** X8. A second message sent while the first is still pending (the Enter
    key allows it) carries the first question in its history without an
    answer, and the two replies are appended after both questions in the
    order in which the calls settle: the reply to the first question comes
    last when its call settles last. *)
Theorem overlapping_sends (w : World) (next : string)
    (id1 ts1 id2 ts2 rid1 rts1 rid2 rts2 : Z)
    (out1 out2 : FetchOutcome ChatResponse) :
  trim (inputValue w) <> "" ->
  trim next <> "" ->
  exists req1 w1 req2 w2,
    handleSendMessage_send id1 ts1 w = Some (req1, w1) /\
    handleSendMessage_send id2 ts2 (setInputValue next w1) = Some (req2, w2) /\
    history req2 = history req1 ++ [{| role := "user"; parts := [inputValue w] |}] /\
    map msg_content
        (messages (handleSendMessage_settle req2 out2 rid2 rts2
                     (handleSendMessage_settle req1 out1 rid1 rts1 w2))) =
      map msg_content (messages w) ++
      [inputValue w; next;
       match sendChatMessage out1 with Ok r => response r | Throw _ => fallback_text end;
       match sendChatMessage out2 with Ok r => response r | Throw _ => fallback_text end] /\
    map msg_content
        (messages (handleSendMessage_settle req1 out1 rid1 rts1
                     (handleSendMessage_settle req2 out2 rid2 rts2 w2))) =
      map msg_content (messages w) ++
      [inputValue w; next;
       match sendChatMessage out2 with Ok r => response r | Throw _ => fallback_text end;
       match sendChatMessage out1 with Ok r => response r | Throw _ => fallback_text end].
Proof.
  intros Hink Hnext.
  eexists _, _, _, _. split; [by apply not_blank_sends|].
  split; [by apply not_blank_sends|]. simpl. split; [by rewrite map_app|].
  split; rewrite !settle_messages; simpl; rewrite !map_app; simpl;
    by rewrite <- !app_assoc.
Qed.

Lemma overlapping_sends_witness :
  let w := mkWorld [] [] "First?" false false None ∅ [] None [] ∅ in
  let one := Responded true "OK" (Ok (mkChatResponse "One.")) in
  let two := Responded true "OK" (Ok (mkChatResponse "Two.")) in
  trim (inputValue w) <> "" /\ trim "Second?" <> "" /\
  exists req1 w1 req2 w2,
    handleSendMessage_send 1 1 w = Some (req1, w1) /\
    handleSendMessage_send 2 2 (setInputValue "Second?" w1) = Some (req2, w2) /\
    history req2 = history req1 ++ [mkMessageHistoryItem "user" ["First?"]] /\
    map msg_content
        (messages (handleSendMessage_settle req1 one 3 3
                     (handleSendMessage_settle req2 two 4 4 w2))) =
      ["First?"; "Second?"; "Two."; "One."].
Proof.
  intros w one two. split; [discriminate|]. split; [discriminate|].
  destruct (overlapping_sends w "Second?" 1 1 2 2 3 3 4 4 one two)
    as (req1 & w1 & req2 & w2 & H1 & H2 & Hh & _ & Hr); [discriminate | discriminate |].
  exists req1, w1, req2, w2. split; [exact H1|]. split; [exact H2|].
  split; [exact Hh | exact Hr].
Defined.

(** X9. After a confirmed reset, whatever its outcome, the next request
    has an empty history when nothing settles in between; when a call that
    was pending at the reset settles before the next send, its late reply
    (or else the fallback text) is appended to the cleared conversation and
    is the one turn of that history. *)
Theorem reset_then_send_history (out : FetchOutcome unit) (w : World)
    (next : string) (now_id now_ts : Z)
    (pending : ChatRequest) (late : FetchOutcome ChatResponse) (rid rts : Z) :
  trim next <> "" ->
  (exists req w',
     handleSendMessage_send now_id now_ts (setInputValue next (fst (handleReset true out w)))
       = Some (req, w') /\
     history req = [] /\ user_query req = next) /\
  (exists req w',
     handleSendMessage_send now_id now_ts
       (setInputValue next
          (handleSendMessage_settle pending late rid rts (fst (handleReset true out w))))
       = Some (req, w') /\
     history req =
       [{| role := "model";
           parts := [match sendChatMessage late with
                     | Ok r => response r
                     | Throw _ => fallback_text
                     end] |}] /\
     user_query req = next).
Proof.
  intros Hnext. split.
  - eexists _, _. split; [by apply not_blank_sends|]. done.
  - eexists _, _. split; [by apply not_blank_sends|]. simpl.
    by rewrite settle_messages.
Qed.

Lemma reset_then_send_history_witness :
  let w := mkWorld [mkMessage "1" USER "What is a chunk?" 1%Z] [] "" true false None ∅ []
                   None [] ∅ in
  let pending := {| user_query := "What is a chunk?"; history := [] |} in
  let late := Responded true "OK" (Ok (mkChatResponse "A slice.")) in
  trim "Start over" <> "" /\
  (exists req w',
     handleSendMessage_send 3 3
       (setInputValue "Start over" (fst (handleReset true (Rejected "Failed to fetch") w)))
       = Some (req, w') /\
     history req = []) /\
  (exists req w',
     handleSendMessage_send 3 3
       (setInputValue "Start over"
          (handleSendMessage_settle pending late 2 2
             (fst (handleReset true (Rejected "Failed to fetch") w))))
       = Some (req, w') /\
     history req = [mkMessageHistoryItem "model" ["A slice."]]).
Proof.
  intros w pending late. split; [discriminate|].
  destruct (reset_then_send_history (Rejected "Failed to fetch") w "Start over" 3 3
              pending late 2 2)
    as ((req & w' & Hs & Hh & _) & (req2 & w2 & Hs2 & Hh2 & _)); [discriminate|].
  split; [by exists req, w' | by exists req2, w2].
Defined.

(** ** More on uploads *)

Lemma upload_settle_appends (e : UploadEnv) (file : File) (w : World) :
  sources (upload_settle e file w) =
    sources w ++ match uploadDocument (upload_outcome e) with
                 | Ok r => [newSource e file r]
                 | Throw _ => []
                 end /\
  console (upload_settle e file w) =
    console w ++ match uploadDocument (upload_outcome e) with
                 | Ok _ => []
                 | Throw error => [["Failed to upload " +:+ file_name file +:+ ":"; error]]
                 end.
Proof.
  unfold upload_settle. destruct (uploadDocument _); simpl; by rewrite app_nil_r.
Qed.

Lemma handleFileUpload_appends (files : list File) (env : nat -> UploadEnv)
    (order : list nat) (w : World) :
  let w' := fst (handleFileUpload (Some files) env order w) in
  sources w' = sources w ++
    flat_map (fun i => match files !! i with
                       | Some file =>
                           match uploadDocument (upload_outcome (env i)) with
                           | Ok r => [newSource (env i) file r]
                           | Throw _ => []
                           end
                       | None => []
                       end) order /\
  console w' = console w ++
    flat_map (fun i => match files !! i with
                       | Some file =>
                           match uploadDocument (upload_outcome (env i)) with
                           | Ok _ => []
                           | Throw error =>
                               [["Failed to upload " +:+ file_name file +:+ ":"; error]]
                           end
                       | None => []
                       end) order.
Proof.
  assert (forall w0 : World,
            sources (upload_settle_all files env order w0) = sources w0 ++
              flat_map (fun i => match files !! i with
                                 | Some file =>
                                     match uploadDocument (upload_outcome (env i)) with
                                     | Ok r => [newSource (env i) file r]
                                     | Throw _ => []
                                     end
                                 | None => []
                                 end) order /\
            console (upload_settle_all files env order w0) = console w0 ++
              flat_map (fun i => match files !! i with
                                 | Some file =>
                                     match uploadDocument (upload_outcome (env i)) with
                                     | Ok _ => []
                                     | Throw error =>
                                         [["Failed to upload " +:+ file_name file +:+ ":";
                                           error]]
                                     end
                                 | None => []
                                 end) order) as Hall.
  { unfold upload_settle_all.
    induction order as [|i order IH]; intros w0; simpl.
    - by rewrite !app_nil_r.
    - destruct (files !! i) as [file|]; simpl; [|apply IH].
      destruct (IH (upload_settled (env i) file w0)) as [-> ->].
      destruct (upload_settled_fields (env i) file w0) as (_ & -> & ->).
      destruct (upload_settle_appends (env i) file w0) as [-> ->].
      by rewrite <- !app_assoc. }
  destruct (upload_start_requests files (setUploadStatus None (setIsUploading true w)))
    as (_ & Hs & Hc).
  fold (upload_start files w) in Hs, Hc. simpl in Hs, Hc.
  destruct (Hall (upload_start files w)) as [Hs' Hc']. rewrite Hs in Hs'. rewrite Hc in Hc'.
  unfold handleFileUpload. by destruct (is_schedule (length files) order).
Qed.

(** X10. The sources of a batch are appended in the order in which the
    uploads complete, not in the order in which the files were chosen, one
    for each upload that succeeded; likewise the console errors, one for
    each upload that failed. *)
Theorem upload_sources_in_completion_order (files : list File) (env : nat -> UploadEnv)
    (order : list nat) (w : World) :
  let w' := fst (handleFileUpload (Some files) env order w) in
  sources w' = sources w ++
    flat_map (fun i => match files !! i with
                       | Some file =>
                           match uploadDocument (upload_outcome (env i)) with
                           | Ok r => [newSource (env i) file r]
                           | Throw _ => []
                           end
                       | None => []
                       end) order /\
  console w' = console w ++
    flat_map (fun i => match files !! i with
                       | Some file =>
                           match uploadDocument (upload_outcome (env i)) with
                           | Ok _ => []
                           | Throw error =>
                               [["Failed to upload " +:+ file_name file +:+ ":"; error]]
                           end
                       | None => []
                       end) order.
Proof. apply handleFileUpload_appends. Qed.

Lemma flat_map_shift {X : Type} (h : nat -> list X) (l : list nat) :
  flat_map h (map S l) = flat_map (fun i => h (S i)) l.
Proof. induction l as [|i l IH]; simpl; [done|]. by rewrite IH. Qed.

Lemma flat_map_seq_imap {X : Type} (l : list File) :
  forall g : nat -> File -> list X,
    flat_map (fun i => match l !! i with Some f => g i f | None => [] end)
             (seq 0 (length l)) = concat (imap g l).
Proof.
  induction l as [|x l IH]; intros g; simpl; [done|].
  f_equal. rewrite <- seq_shift, flat_map_shift. apply (IH (fun i => g (S i))).
Qed.

Lemma successes_length (l : list File) :
  forall env : nat -> UploadEnv,
    length (concat (imap (fun i file =>
                            match uploadDocument (upload_outcome (env i)) with
                            | Ok r => [newSource (env i) file r]
                            | Throw _ => []
                            end) l)) =
    length (List.filter success (upload_results l env)).
Proof.
  induction l as [|x l IH]; intros env; simpl; [done|].
  rewrite length_app. unfold upload_results in *.
  specialize (IH (fun i => env (S i))). unfold compose. rewrite IH.
  destruct (uploadDocument (upload_outcome (env 0))); done.
Qed.

Lemma is_schedule_Permutation (n : nat) (order : list nat) :
  is_schedule n order = true -> Permutation (seq 0 n) order.
Proof.
  intros H. apply NoDup_Permutation_bis.
  - apply seq_NoDup.
  - unfold is_schedule in H. apply andb_true_iff in H as [H _].
    apply Nat.eqb_eq in H. rewrite length_seq. lia.
  - intros i Hi. apply in_seq in Hi. eapply is_schedule_In; [done | lia].
Qed.

(** X11. When every request of a batch settles once, in whatever order,
    the list of sources grows by exactly the number of successes that the
    status counts, and the successes and the failures it counts add up to
    the number of files. *)
Theorem upload_counts (files : list File) (env : nat -> UploadEnv)
    (order : list nat) (w : World) :
  is_schedule (length files) order = true ->
  let w' := fst (handleFileUpload (Some files) env order w) in
  let results := snd (handleFileUpload (Some files) env order w) in
  let successCount := length (List.filter success results) in
  let failCount := length (List.filter (fun r => negb (success r)) results) in
  length (sources w') = length (sources w) + successCount /\
  successCount + failCount = length files.
Proof.
  intros Hsched w' results successCount failCount.
  assert (results = upload_results files env) as Hres.
  { unfold results, handleFileUpload. by rewrite Hsched. }
  unfold successCount, failCount. rewrite Hres. clear Hres. split.
  - destruct (handleFileUpload_appends files env order w) as [Hs _].
    fold w' in Hs. rewrite Hs, length_app. f_equal.
    apply is_schedule_Permutation in Hsched.
    rewrite <- (Permutation_length (Permutation_flat_map _ Hsched)).
    rewrite (flat_map_seq_imap files
               (fun i file => match uploadDocument (upload_outcome (env i)) with
                              | Ok r => [newSource (env i) file r]
                              | Throw _ => []
                              end)).
    apply successes_length.
  - rewrite filter_length. apply length_imap.
Qed.

Lemma upload_counts_witness :
  let broken := mkFile "scan.pdf" "application/pdf" 4096 "" in
  let notes := mkFile "notes.txt" "text/plain" 15 "Chunks overlap." in
  let reply := {| message := "File uploaded successfully"; filename := None |} in
  let env := fun i =>
    match i with
    | 0 => mkUploadEnv (Rejected "Failed to fetch") "a1b2c3d4e" 10%Z
    | _ => mkUploadEnv (Responded true "OK" (Ok reply)) "f5g6h7i8j" 11%Z
    end in
  let w := mkWorld [] [] "" false false None ∅ [] None [] ∅ in
  is_schedule 2 [1; 0] = true /\
  length (sources (fst (handleFileUpload (Some [broken; notes]) env [1; 0] w))) = 0 + 1.
Proof.
  intros broken notes reply env w. split; [reflexivity|].
  exact (proj1 (upload_counts [broken; notes] env [1; 0] w eq_refl)).
Defined.

Lemma filter_nonempty_iff {X : Type} (p : X -> bool) (l : list X) :
  (0 <? length (List.filter p l)) = true <-> exists x, In x l /\ p x = true.
Proof.
  rewrite Nat.ltb_lt. split.
  - destruct (List.filter p l) as [|x rest] eqn:Hf; simpl; [lia|]. intros _.
    exists x. apply filter_In. rewrite Hf. by left.
  - intros (x & Hin & Hp).
    assert (In x (List.filter p l)) as Hx by (by apply filter_In).
    destruct (List.filter p l); simpl in *; [done | lia].
Qed.

Lemma foldl_keeps {B T : Type} (proj : World -> T) (f : World -> B -> World) (l : list B) :
  (forall w b, proj (f w b) = proj w) ->
  forall w, proj (foldl f w l) = proj w.
Proof.
  intros Hf. induction l as [|b l IH]; intros w; simpl; [done|].
  by rewrite IH, Hf.
Qed.

(** X12. When every request of a batch has settled, the upload
    indicator is off and a status is shown, which is a success status
    exactly when at least one file was uploaded and an error status
    otherwise; a batch of no files therefore reports an error about zero
    files. *)
Theorem upload_status_after_batch (files : list File) (env : nat -> UploadEnv)
    (order : list nat) (w : World) :
  is_schedule (length files) order = true ->
  let w' := fst (handleFileUpload (Some files) env order w) in
  isUploading w' = false /\
  exists st,
    uploadStatus w' = Some st /\
    (status_type st = "success" \/ status_type st = "error") /\
    (status_type st = "success" <->
     exists i file, files !! i = Some file /\
                    is_ok (uploadDocument (upload_outcome (env i))) = true) /\
    (files = [] -> msg st = "Failed to upload 0 file").
Proof.
  intros Hsched. unfold handleFileUpload. rewrite Hsched.
  simpl. split; [done|]. eexists. split; [reflexivity|].
  destruct (0 <? length (List.filter success (upload_results files env))) eqn:Hany; simpl.
  - split; [by left|]. split; [|by intros ->].
    split; [intros _|done].
    apply filter_nonempty_iff in Hany as (r & Hin & Hok).
    apply list_elem_of_In, list_elem_of_lookup in Hin as (i & Hi).
    unfold upload_results in Hi. apply list_lookup_imap_Some in Hi as (file & Hfile & ->).
    by exists i, file.
  - split; [by right|]. split; [|by intros ->].
    split; [discriminate|]. intros (i & file & Hfile & Hok).
    assert ((0 <? length (List.filter success (upload_results files env))) = true) as Hyes;
      [|congruence].
    apply filter_nonempty_iff. exists (upload_result (env i) file). split; [|done].
    apply list_elem_of_In, list_elem_of_lookup. exists i.
    unfold upload_results. by rewrite list_lookup_imap, Hfile.
Qed.

Lemma upload_status_after_batch_witness :
  let broken := mkFile "scan.pdf" "application/pdf" 4096 "" in
  let notes := mkFile "notes.txt" "text/plain" 15 "Chunks overlap." in
  let reply := {| message := "File uploaded successfully"; filename := None |} in
  let env := fun i =>
    match i with
    | 0 => mkUploadEnv (Rejected "Failed to fetch") "a1b2c3d4e" 10%Z
    | _ => mkUploadEnv (Responded true "OK" (Ok reply)) "f5g6h7i8j" 11%Z
    end in
  let w := mkWorld [] [] "" false false None ∅ [] None [] ∅ in
  let w' := fst (handleFileUpload (Some [broken; notes]) env [1; 0] w) in
  is_schedule 2 [1; 0] = true /\
  isUploading w' = false /\
  uploadStatus w' = Some {| status_type := "success";
                            msg := "Successfully uploaded 1 file, 1 failed" |}.
Proof.
  intros broken notes reply env w w'. split; [reflexivity|].
  split; [exact (proj1 (upload_status_after_batch [broken; notes] env [1; 0] w eq_refl))|].
  reflexivity.
Defined.

(** X29. As long as a request of the batch has not settled, the handler is
    still waiting: the upload indicator stays on and no status is shown,
    while the sources of the uploads that have succeeded are already
    there. *)
Theorem upload_pending_batch (files : list File) (env : nat -> UploadEnv)
    (order : list nat) (w : World) :
  is_schedule (length files) order = false ->
  let w' := fst (handleFileUpload (Some files) env order w) in
  isUploading w' = true /\
  uploadStatus w' = None /\
  snd (handleFileUpload (Some files) env order w) = [] /\
  sources w' = sources w ++
    flat_map (fun i => match files !! i with
                       | Some file =>
                           match uploadDocument (upload_outcome (env i)) with
                           | Ok r => [newSource (env i) file r]
                           | Throw _ => []
                           end
                       | None => []
                       end) order.
Proof.
  intros Hsched. cbv zeta.
  split; [|split; [|split; [|apply handleFileUpload_appends]]];
    unfold handleFileUpload; rewrite Hsched; simpl; [| |done].
  - unfold upload_settle_all.
    rewrite (foldl_keeps (fun w => isUploading w)).
    + unfold upload_start. by rewrite (foldl_keeps (fun w => isUploading w)).
    + intros w0 i. destruct (files !! i) as [file|]; [|done].
      unfold upload_settled, upload_settle.
      by destruct (uploadDocument _).
  - unfold upload_settle_all.
    rewrite (foldl_keeps (fun w => uploadStatus w)).
    + unfold upload_start. by rewrite (foldl_keeps (fun w => uploadStatus w)).
    + intros w0 i. destruct (files !! i) as [file|]; [|done].
      unfold upload_settled, upload_settle.
      by destruct (uploadDocument _).
Qed.

Lemma upload_pending_batch_witness :
  let scan := mkFile "scan.pdf" "application/pdf" 4096 "" in
  let notes := mkFile "notes.txt" "text/plain" 15 "Chunks overlap." in
  let reply := {| message := "File uploaded successfully"; filename := None |} in
  let env := fun _ : nat => mkUploadEnv (Responded true "OK" (Ok reply)) "f5g6h7i8j" 11%Z in
  let w := mkWorld [] [] "" false false None ∅ [] None [] ∅ in
  let w' := fst (handleFileUpload (Some [scan; notes]) env [1] w) in
  is_schedule 2 [1] = false /\
  isUploading w' = true /\ uploadStatus w' = None /\
  map src_name (sources w') = ["notes.txt"].
Proof.
  intros scan notes reply env w w'. split; [reflexivity|].
  destruct (upload_pending_batch [scan; notes] env [1] w eq_refl) as (Hu & Hs & _ & Hsrc).
  split; [exact Hu|]. split; [exact Hs|]. fold w' in Hsrc. by rewrite Hsrc.
Defined.

(** X13. An upload never touches the conversation: the messages, the
    input and the typing indicator are as they were, and so is every key
    of localStorage other than the key of the sources, for any files,
    outcomes and order of completion; once an upload of the batch has
    succeeded, the key of the sources holds the sources of the page. *)
Theorem upload_leaves_conversation (files : option (list File)) (env : nat -> UploadEnv)
    (order : list nat) (w : World) :
  let w' := fst (handleFileUpload files env order w) in
  messages w' = messages w /\
  inputValue w' = inputValue w /\
  isTyping w' = isTyping w /\
  (forall k, k <> STORAGE_KEY_SOURCES -> localStorage w' !! k = localStorage w !! k) /\
  (length (sources w) < length (sources w') ->
   localStorage w' !! STORAGE_KEY_SOURCES = Some (JArray (map Source_json (sources w')))).
Proof.
  destruct files as [files|]; [|simpl; repeat split; try done; lia].
  set (keep := fun w1 w2 : World =>
         messages w2 = messages w1 /\ inputValue w2 = inputValue w1 /\
         isTyping w2 = isTyping w1 /\
         (forall k, k <> STORAGE_KEY_SOURCES -> localStorage w2 !! k = localStorage w1 !! k) /\
         length (sources w1) <= length (sources w2) /\
         (localStorage w2 !! STORAGE_KEY_SOURCES = localStorage w1 !! STORAGE_KEY_SOURCES /\
          sources w2 = sources w1 \/
          localStorage w2 !! STORAGE_KEY_SOURCES
            = Some (JArray (map Source_json (sources w2))))).
  assert (forall w1, keep w1 w1) as Hrefl.
  { intros w1. unfold keep. repeat split; try done. by left. }
  assert (forall w1 w2 w3, keep w1 w2 -> keep w2 w3 -> keep w1 w3) as Htrans.
  { unfold keep. intros w1 w2 w3 (Hm & Hi & Ht & Hk & Hl & Hs) (Hm' & Hi' & Ht' & Hk' & Hl' & Hs').
    split; [congruence|]. split; [congruence|]. split; [congruence|].
    split; [intros k Hne; by rewrite Hk', Hk|]. split; [lia|].
    destruct Hs' as [[Hsame Hsrc]|Hnew]; [|by right].
    destruct Hs as [[Hsame0 Hsrc0]|Hnew0].
    - left. split; congruence.
    - right. rewrite Hsame, Hsrc. exact Hnew0. }
  assert (forall e file w1, keep w1 (upload_settled e file w1)) as Hstep.
  { intros e file w1. unfold upload_settled, upload_settle, keep.
    destruct (uploadDocument (upload_outcome e)); simpl.
    - repeat split; try done.
      + intros k Hne. by rewrite lookup_insert_ne.
      + rewrite length_app. lia.
      + right. apply lookup_insert_eq.
    - repeat split; try done. by left. }
  assert (forall w1, keep w1 (upload_settle_all files env order w1)) as Hall.
  { unfold upload_settle_all.
    induction order as [|i order IH]; intros w1; simpl; [apply Hrefl|].
    destruct (files !! i) as [file|]; [|apply IH].
    eapply Htrans; [apply Hstep | apply IH]. }
  assert (keep w (upload_start files w)) as Hstart.
  { unfold upload_start.
    apply Htrans with (setUploadStatus None (setIsUploading true w)).
    - unfold keep. repeat split; try done. by left.
    - assert (forall (fs : list File) w1,
                keep w1 (foldl (fun w file =>
                                  fetch (uploadDocument_request (NEXT_PUBLIC_BASE_URL w) file) w)
                               w1 fs)) as Hfetch; [|apply Hfetch].
      induction fs as [|f fs IH]; intros w1; simpl; [apply Hrefl|].
      eapply Htrans; [|apply IH]. unfold keep. repeat split; try done. by left. }
  assert (keep w (fst (handleFileUpload (Some files) env order w))) as Hkeep.
  { pose proof (Htrans _ _ _ Hstart (Hall (upload_start files w))) as Hsettled.
    unfold handleFileUpload. destruct (is_schedule (length files) order); simpl; [|done].
    eapply Htrans; [exact Hsettled|]. unfold keep. repeat split; try done. by left. }
  destruct Hkeep as (Hm & Hi & Ht & Hk & Hl & Hs). cbv zeta.
  split; [done|]. split; [done|]. split; [done|]. split; [done|].
  intros Hgrew. destruct Hs as [[_ Hsame]|Hnew]; [|done].
  rewrite Hsame in Hgrew. lia.
Qed.

Lemma upload_leaves_conversation_witness :
  let notes := mkFile "notes.txt" "text/plain" 15 "Chunks overlap." in
  let reply := {| message := "File uploaded successfully"; filename := None |} in
  let env := fun _ : nat => mkUploadEnv (Responded true "OK" (Ok reply)) "f5g6h7i8j" 11%Z in
  let w := mkWorld [mkMessage "1" USER "What is a chunk?" 1%Z] [] "draft" false false None
                   {[ "nanobook_theme" := JString "dark" ]} [] None [] ∅ in
  let w' := fst (handleFileUpload (Some [notes]) env [0] w) in
  length (sources w) < length (sources w') /\
  localStorage w' !! STORAGE_KEY_SOURCES = Some (JArray (map Source_json (sources w'))) /\
  localStorage w' !! "nanobook_theme" = Some (JString "dark").
Proof.
  intros notes reply env w w'.
  destruct (upload_leaves_conversation (Some [notes]) env [0] w) as (_ & _ & _ & Hk & Hs).
  assert (length (sources w) < length (sources w')) as Hgrew by (vm_compute; lia).
  split; [exact Hgrew|]. split; [exact (Hs Hgrew)|].
  exact (eq_trans (Hk "nanobook_theme" ltac:(discriminate)) eq_refl).
Defined.

(** X14. A source made by an upload never has an empty type (a file
    without a type is recorded as application/octet-stream), carries the
    name and the size of the file, and has an empty content only if the
    name of the file is empty. *)
Theorem newSource_fields (e : UploadEnv) (file : File) (r : UploadResponse) :
  src_type (newSource e file r) <> "" /\
  (file_type file <> "" -> src_type (newSource e file r) = file_type file) /\
  src_name (newSource e file r) = file_name file /\
  src_size (newSource e file r) = file_size file /\
  (src_content (newSource e file r) = "" -> file_name file = "").
Proof.
  unfold newSource, or_else. simpl.
  destruct (file_type file) as [|c t]; destruct (filename r) as [[|c' f]|]; done.
Qed.

(** ** Removing sources *)

Lemma handleRemoveSource_sources (id : string) (w : World) :
  sources (handleRemoveSource id w) =
  List.filter (fun s => negb (String.eqb (src_id s) id)) (sources w).
Proof. done. Qed.

Lemma world_eq_sources (w : World) (ss : list Source) :
  ss = sources w -> setSources ss w = w.
Proof. intros ->. by destruct w. Qed.

(** X15. Removing a source is idempotent, two removals commute, and what
    is left keeps its order: the remaining sources are a sublist of the
    old ones. *)
Theorem remove_source_idempotent_commutes (id id' : string) (w : World) :
  handleRemoveSource id (handleRemoveSource id w) = handleRemoveSource id w /\
  handleRemoveSource id (handleRemoveSource id' w) =
    handleRemoveSource id' (handleRemoveSource id w) /\
  sublist (sources (handleRemoveSource id w)) (sources w).
Proof.
  assert (forall a b, setSources a (setSources b w) = setSources a w) as Htwice by done.
  unfold handleRemoveSource. simpl. rewrite !Htwice. split; [|split].
  - f_equal. induction (sources w) as [|s ss IH]; simpl; [done|].
    destruct (negb (String.eqb (src_id s) id)) eqn:Hs; simpl; rewrite ?Hs, IH; done.
  - f_equal. induction (sources w) as [|s ss IH]; simpl; [done|].
    destruct (negb (String.eqb (src_id s) id)) eqn:Hs,
             (negb (String.eqb (src_id s) id')) eqn:Hs'; simpl;
      rewrite ?Hs, ?Hs', ?IH; done.
  - induction (sources w) as [|s ss IH]; simpl; [done|].
    destruct (negb _); by constructor.
Qed.

(** X16. Removing an id that no source has changes nothing. *)
Theorem remove_absent_source (id : string) (w : World) :
  Forall (fun s => src_id s <> id) (sources w) ->
  handleRemoveSource id w = w.
Proof.
  intros Hall. unfold handleRemoveSource. apply world_eq_sources.
  induction Hall as [|s ss Hs _ IH]; simpl; [done|].
  apply String.eqb_neq in Hs. rewrite Hs. simpl. by rewrite IH.
Qed.

Lemma remove_absent_source_witness :
  let source := mkSource "k3j9x0q1z" "notes.pdf" "notes.pdf" "application/pdf" 2048 5%Z in
  let w := mkWorld [] [source] "" false false None ∅ [] None [] ∅ in
  Forall (fun s => src_id s <> "zzzzzzzzz") (sources w) /\
  handleRemoveSource "zzzzzzzzz" w = w.
Proof.
  intros source w.
  assert (Forall (fun s => src_id s <> "zzzzzzzzz") (sources w)) as H.
  { repeat constructor. discriminate. }
  split; [exact H | exact (remove_absent_source "zzzzzzzzz" w H)].
Defined.

(** ** Persistence across a reload *)

Lemma Message_round_trip (m : Message) : Message_of_json (Message_json m) = Some m.
Proof. destruct m as [i [] c t]; reflexivity. Qed.

Lemma Source_round_trip (s : Source) : Source_of_json (Source_json s) = Some s.
Proof. by destruct s. Qed.

Lemma array_round_trip {T : Type} (enc : T -> json) (dec : json -> option T) (l : list T) :
  (forall x, dec (enc x) = Some x) ->
  array_of_json dec (JArray (map enc l)) = Some l.
Proof.
  intros Hrt. simpl. induction l as [|x l IH]; simpl; [done|]. by rewrite Hrt, IH.
Qed.

Lemma stored_theme_dark_iff (storage : gmap string json) :
  load_theme {| classList := ∅; themeItem := stored_theme storage |} false = true <->
  storage !! STORAGE_KEY_THEME = Some (JString "dark").
Proof.
  unfold load_theme, stored_theme. simpl.
  destruct (storage !! STORAGE_KEY_THEME) as [[| | |word| |]|]; try done.
  destruct word as [|c word]; [done|].
  destruct (String.eqb_spec (String c word) "dark") as [->|Hne]; [done|].
  split; [done|]. intros H. by simplify_eq.
Qed.

(** X17. What the page has saved is what it shows after a reload: mounting
    a fresh page over the storage left by the persistence effects restores
    the messages and the sources exactly and leaves every key of the
    storage as it was except the theme, which is written as "dark" when
    the stored theme was "dark" and as "light" otherwise. *)
Theorem reload_restores_conversation (w : World) (classes : gset string)
    (console' : list (list string)) (env' : option string) (requests' : list Request)
    (collection' : Collection) :
  exists darkMode classes' w',
    mount classes
      (first_render (localStorage (persist w)) console' env' requests' collection')
      = Some (darkMode, classes', w') /\
    messages w' = messages w /\
    sources w' = sources w /\
    (forall k, k <> STORAGE_KEY_THEME ->
               localStorage w' !! k = localStorage (persist w) !! k) /\
    localStorage w' !! STORAGE_KEY_THEME =
      Some (JString (if darkMode then "dark" else "light")) /\
    (darkMode = true <-> localStorage w !! STORAGE_KEY_THEME = Some (JString "dark")).
Proof.
  unfold mount, load_effect, first_render. simpl.
  rewrite lookup_insert_ne by done. rewrite lookup_insert_eq.
  rewrite (array_round_trip _ _ _ Message_round_trip). simpl.
  rewrite lookup_insert_eq.
  rewrite (array_round_trip _ _ _ Source_round_trip). simpl.
  eexists _, _, _. split; [reflexivity|]. simpl.
  split; [done|]. split; [done|]. split; [|split].
  - intros k Hk. rewrite lookup_insert_ne by done.
    destruct (decide (k = STORAGE_KEY_SOURCES)) as [->|Hs];
      [by rewrite !lookup_insert_eq|].
    rewrite !(lookup_insert_ne _ STORAGE_KEY_SOURCES) by done.
    destruct (decide (k = STORAGE_KEY_MESSAGES)) as [->|Hm];
      [by rewrite !lookup_insert_eq|].
    by rewrite !lookup_insert_ne.
  - apply lookup_insert_eq.
  - rewrite <- (stored_theme_dark_iff (localStorage w)).
    unfold load_theme, stored_theme. simpl.
    by rewrite !lookup_insert_ne.
Qed.

(** X18. Mounting over a storage that holds neither the messages nor the
    sources starts with no messages and no sources, sends nothing, and
    writes three keys: the messages and the sources, each holding the empty
    list, and the theme, "dark" when the stored theme was "dark" and
    "light" otherwise, also when there was none. *)
Theorem mount_on_empty_storage (storage : gmap string json) (classes : gset string)
    (console' : list (list string)) (env' : option string) (requests' : list Request)
    (collection' : Collection) :
  storage !! STORAGE_KEY_MESSAGES = None ->
  storage !! STORAGE_KEY_SOURCES = None ->
  exists darkMode classes' w',
    mount classes (first_render storage console' env' requests' collection')
      = Some (darkMode, classes', w') /\
    messages w' = [] /\ sources w' = [] /\
    requests w' = requests' /\
    (darkMode = true <-> storage !! STORAGE_KEY_THEME = Some (JString "dark")) /\
    localStorage w' =
      <[STORAGE_KEY_THEME := JString (if darkMode then "dark" else "light")]>
        (<[STORAGE_KEY_SOURCES := JArray []]>
           (<[STORAGE_KEY_MESSAGES := JArray []]> storage)).
Proof.
  intros Hm Hs. unfold mount, load_effect, first_render. simpl.
  rewrite Hm. simpl. rewrite Hs. simpl.
  eexists _, _, _. split; [reflexivity|]. simpl.
  split; [done|]. split; [done|]. split; [done|]. split; [|done].
  apply stored_theme_dark_iff.
Qed.

Lemma mount_on_empty_storage_witness :
  let storage : gmap string json := {[ "nanobook_theme" := JString "Dark" ]} in
  storage !! STORAGE_KEY_MESSAGES = None /\
  storage !! STORAGE_KEY_SOURCES = None /\
  exists darkMode classes' w',
    mount ∅ (first_render storage [] None [] ∅) = Some (darkMode, classes', w') /\
    darkMode = false /\
    messages w' = [] /\
    localStorage w' !! "nanobook_theme" = Some (JString "light").
Proof.
  intros storage.
  destruct (mount_on_empty_storage storage ∅ [] None [] ∅)
    as (dark & classes' & w' & Hmount & Hm & _ & _ & Hd & Hl);
    [reflexivity | reflexivity |].
  split; [reflexivity|]. split; [reflexivity|].
  exists dark, classes', w'. split; [exact Hmount|].
  assert (dark = false) as ->.
  { destruct dark; [|done]. destruct Hd as [Hd _]. by specialize (Hd eq_refl). }
  split; [reflexivity|]. split; [exact Hm|].
  rewrite Hl. apply lookup_insert_eq.
Defined.

(** X19. The persistence effects write the two keys of the page and no
    other, change nothing of the page's state, and writing twice is the
    same as writing once; before the page has mounted they write nothing. *)
Theorem persist_writes_only_its_keys (w : World) :
  persist_sources_effect true (persist_messages_effect true w) = persist w /\
  persist_sources_effect false (persist_messages_effect false w) = w /\
  (forall k, k <> STORAGE_KEY_MESSAGES -> k <> STORAGE_KEY_SOURCES ->
             localStorage (persist w) !! k = localStorage w !! k) /\
  persist (persist w) = persist w /\
  (messages (persist w), sources (persist w), requests (persist w), console (persist w))
  = (messages w, sources w, requests w, console w).
Proof.
  split; [done|]. split; [done|]. split; [|split; [|done]].
  - intros k Hm Hs. simpl. by rewrite !lookup_insert_ne.
  - unfold persist. simpl. unfold setLocalStorage. simpl. f_equal.
    apply map_eq. intros k.
    destruct (decide (k = STORAGE_KEY_SOURCES)) as [->|Hs];
      [by rewrite !lookup_insert_eq|].
    rewrite !(lookup_insert_ne _ STORAGE_KEY_SOURCES) by done.
    destruct (decide (k = STORAGE_KEY_MESSAGES)) as [->|Hm];
      [by rewrite !lookup_insert_eq|].
    by rewrite !lookup_insert_ne.
Qed.

(** ** The theme *)

Lemma theme_effect_classes (darkMode : bool) (d : Dom) (c : string) :
  c ∈ classList (theme_effect true darkMode d) <->
  (c = "dark" /\ darkMode = true) \/ (c <> "dark" /\ c ∈ classList d).
Proof.
  destruct darkMode; simpl.
  - rewrite elem_of_union, elem_of_singleton.
    destruct (decide (c = "dark")); intuition congruence.
  - rewrite elem_of_difference, elem_of_singleton. intuition congruence.
Qed.

(** X20. Once the page has mounted, the theme effect leaves the document
    with the class "dark" exactly in dark mode, touches no other class,
    and stores a theme that loads back as the same mode. *)
Theorem theme_effect_in_sync (darkMode other : bool) (d : Dom) :
  let d' := theme_effect true darkMode d in
  ("dark" ∈ classList d' <-> darkMode = true) /\
  (forall c, c <> "dark" -> c ∈ classList d' <-> c ∈ classList d) /\
  load_theme d' other = darkMode.
Proof.
  cbv zeta. split; [|split].
  - rewrite theme_effect_classes. intuition congruence.
  - intros c Hc. rewrite theme_effect_classes. intuition congruence.
  - by destruct darkMode.
Qed.

(** X21. On mount the page is in dark mode exactly when the stored theme
    is the string "dark"; any other stored theme, and no stored theme,
    gives light mode, and the stored theme is rewritten as "dark" or
    "light" accordingly. *)
Theorem mount_theme_dark_iff (d : Dom) :
  let (darkMode, d') := mount_theme d in
  (darkMode = true <-> themeItem d = Some "dark") /\
  themeItem d' = Some (if darkMode then "dark" else "light") /\
  ("dark" ∈ classList d' <-> darkMode = true).
Proof.
  unfold mount_theme. cbv beta iota zeta.
  change (theme_effect false false d) with d.
  split; [|split; [done|rewrite theme_effect_classes; intuition congruence]].
  unfold load_theme. destruct (themeItem d) as [[|c s]|]; [done| |done].
  destruct (String.eqb (String c s) "dark") eqn:Heq.
  - apply String.eqb_eq in Heq. by rewrite Heq.
  - apply String.eqb_neq in Heq. split; [done|]. intros H. by simplify_eq.
Qed.

(** X22. Toggling the theme twice gives back the mode, and the document
    and the stored theme that the effect gives for it. *)
Theorem toggle_theme_twice (darkMode : bool) (d : Dom) :
  let (once, d1) := toggle_theme darkMode d in
  let (twice, d2) := toggle_theme once d1 in
  twice = darkMode /\ d2 = theme_effect true darkMode d.
Proof.
  unfold toggle_theme, theme_effect. simpl. rewrite negb_involutive.
  split; [done|]. destruct darkMode, d as [cl item]; simpl; f_equal.
  - apply set_eq. intros c.
    rewrite !elem_of_union, elem_of_difference, elem_of_singleton.
    destruct (decide (c = "dark")); intuition congruence.
  - apply set_eq. intros c.
    rewrite !elem_of_difference, elem_of_union, elem_of_singleton. intuition congruence.
Qed.

(** ** The source card *)

Lemma tenths_nearest (num den : Z) :
  (0 < den)%Z ->
  (- den < 2 * (den * tenths num den - 10 * num) <= den)%Z.
Proof.
  intros Hden. unfold tenths.
  pose proof (Z.div_mod (20 * num + den) (2 * den)) as Hdm.
  pose proof (Z.mod_pos_bound (20 * num + den) (2 * den)) as Hmod.
  nia.
Qed.

(** X23. A size from 1024 bytes up to, but not including, 1048576 bytes
    is shown in KB with one decimal, rounded to the nearest tenth (a tie
    goes up): the number shown is at least 1.0 and within 0.05 of the
    size; it can be 1024.0. *)
Theorem formatSize_kilobytes (bytes : Z) :
  (1024 <= bytes < 1048576)%Z ->
  exists n : Z,
    formatSize bytes = (pretty (n / 10)%Z +:+ "." +:+ pretty (n mod 10)%Z) +:+ " KB" /\
    (10 <= n <= 10240)%Z /\
    (-512 < 1024 * n - 10 * bytes <= 512)%Z.
Proof.
  intros [Hlo Hhi]. exists (tenths bytes 1024). unfold formatSize.
  destruct (Z.ltb_spec bytes 1024); [lia|].
  destruct (Z.ltb_spec bytes 1048576); [|lia].
  split; [done|].
  pose proof (tenths_nearest bytes 1024). lia.
Qed.

Lemma formatSize_kilobytes_witness :
  (1024 <= 1536 < 1048576)%Z /\ formatSize 1536 = "1.5 KB" /\
  exists n : Z,
    formatSize 1536 = (pretty (n / 10)%Z +:+ "." +:+ pretty (n mod 10)%Z) +:+ " KB" /\
    (10 <= n <= 10240)%Z /\
    (-512 < 1024 * n - 10 * 1536 <= 512)%Z.
Proof.
  split; [lia|]. split; [reflexivity|].
  apply (formatSize_kilobytes 1536). lia.
Defined.

(** X24. A size of 1048576 bytes or more is shown in MB with one decimal,
    rounded to the nearest tenth (a tie goes up): the number shown is at
    least 1.0 and within 0.05 of the size. *)
Theorem formatSize_megabytes (bytes : Z) :
  (1048576 <= bytes)%Z ->
  exists n : Z,
    formatSize bytes = (pretty (n / 10)%Z +:+ "." +:+ pretty (n mod 10)%Z) +:+ " MB" /\
    (10 <= n)%Z /\
    (-524288 < 1048576 * n - 10 * bytes <= 524288)%Z.
Proof.
  intros Hlo. exists (tenths bytes 1048576). unfold formatSize.
  destruct (Z.ltb_spec bytes 1024); [lia|].
  destruct (Z.ltb_spec bytes 1048576); [lia|].
  split; [done|].
  pose proof (tenths_nearest bytes 1048576). lia.
Qed.

Lemma formatSize_megabytes_witness :
  (1048576 <= 5505024)%Z /\ formatSize 5505024 = "5.3 MB" /\
  exists n : Z,
    formatSize 5505024 = (pretty (n / 10)%Z +:+ "." +:+ pretty (n mod 10)%Z) +:+ " MB" /\
    (10 <= n)%Z /\
    (-524288 < 1048576 * n - 10 * 5505024 <= 524288)%Z.
Proof.
  split; [lia|]. split; [reflexivity|].
  apply (formatSize_megabytes 5505024). lia.
Defined.

Lemma split_not_nil (sep : ascii) (s : string) : split sep s <> [].
Proof.
  induction s as [|c s IH]; simpl; [done|].
  destruct (Ascii.eqb c sep); [done|]. by destruct (split sep s).
Qed.

Lemma split_pieces (sep : ascii) (s : string) :
  Forall (fun piece => Forall (fun c => c <> sep) (String.list_ascii_of_string piece))
         (split sep s).
Proof.
  induction s as [|c s IH]; simpl; [by repeat constructor|].
  destruct (Ascii.eqb_spec c sep) as [->|Hne].
  - constructor; [constructor | exact IH].
  - destruct (split sep s) as [|piece pieces]; [by repeat constructor|].
    inversion IH; subst. constructor; [|done]. simpl. by constructor.
Qed.

Lemma split_without_sep (sep : ascii) (s : string) :
  Forall (fun c => c <> sep) (String.list_ascii_of_string s) ->
  split sep s = [s].
Proof.
  induction s as [|c s IH]; simpl; [done|]. intros H. inversion H; subst.
  destruct (Ascii.eqb_spec c sep); [done|]. by rewrite IH.
Qed.

Lemma split_at_sep (sep : ascii) (a b : string) :
  Forall (fun c => c <> sep) (String.list_ascii_of_string a) ->
  split sep (a +:+ String sep b) = a :: split sep b.
Proof.
  induction a as [|c a IH]; simpl; intros H.
  - by rewrite Ascii.eqb_refl.
  - inversion H; subst. destruct (Ascii.eqb_spec c sep); [done|].
    change (String.append a (String sep b)) with (a +:+ String sep b).
    by rewrite IH.
Qed.

Lemma upper_shape (c : ascii) :
  c <> "/"%char ->
  upper c <> "/"%char /\
  (97 <=? nat_of_ascii (upper c)) && (nat_of_ascii (upper c) <=? 122) = false.
Proof.
  destruct c as [[] [] [] [] [] [] [] []]; intros H; vm_compute; (split; [congruence|done]).
Qed.

Lemma toUpperCase_shape (s : string) :
  Forall (fun c => c <> "/"%char) (String.list_ascii_of_string s) ->
  Forall (fun c => c <> "/"%char /\
                   (97 <=? nat_of_ascii c) && (nat_of_ascii c <=? 122) = false)
         (String.list_ascii_of_string (toUpperCase s)).
Proof.
  induction s as [|c s IH]; simpl; intros H; [constructor|].
  inversion H; subst. constructor; [by apply upper_shape | by apply IH].
Qed.

(** X25. The type label of a source card is never empty and holds neither
    a slash nor a lower-case letter a to z, whatever the type of the
    source. *)
Theorem type_label_shape (type : string) :
  type_label type <> "" /\
  Forall (fun c => c <> "/"%char /\
                   (97 <=? nat_of_ascii c) && (nat_of_ascii c <=? 122) = false)
         (String.list_ascii_of_string (type_label type)).
Proof.
  unfold type_label.
  pose proof (split_pieces "/"%char type) as Hpieces.
  destruct (split "/"%char type !! 1) as [piece|] eqn:Hpiece; simpl.
  - assert (Forall (fun c => c <> "/"%char) (String.list_ascii_of_string piece)) as Hp.
    { rewrite Forall_forall in Hpieces. apply Hpieces.
      apply list_elem_of_lookup. by exists 1. }
    apply toUpperCase_shape in Hp.
    unfold or_else. destruct (toUpperCase piece) eqn:Hu; [|done].
    split; [done|]. repeat constructor; done.
  - split; [done|]. repeat constructor; done.
Qed.

(** X26. For a type of the form a/b, with no further slash and b not
    empty, the label is b in upper case. *)
Theorem type_label_subtype (a b : string) :
  Forall (fun c => c <> "/"%char) (String.list_ascii_of_string a) ->
  Forall (fun c => c <> "/"%char) (String.list_ascii_of_string b) ->
  b <> "" ->
  type_label (a +:+ String "/"%char b) = toUpperCase b.
Proof.
  intros Ha Hb Hne. unfold type_label.
  rewrite (split_at_sep _ _ _ Ha), (split_without_sep _ _ Hb). simpl.
  unfold or_else. destruct b as [|c b]; [done|]. done.
Qed.

Lemma type_label_subtype_witness :
  Forall (fun c => c <> "/"%char) (String.list_ascii_of_string "application") /\
  Forall (fun c => c <> "/"%char) (String.list_ascii_of_string "pdf") /\
  "pdf" <> "" /\
  type_label "application/pdf" = "PDF".
Proof.
  assert (Forall (fun c => c <> "/"%char) (String.list_ascii_of_string "application")) as Ha.
  { repeat constructor; discriminate. }
  assert (Forall (fun c => c <> "/"%char) (String.list_ascii_of_string "pdf")) as Hb.
  { repeat constructor; discriminate. }
  split; [exact Ha|]. split; [exact Hb|]. split; [discriminate|].
  exact (type_label_subtype "application" "pdf" Ha Hb ltac:(discriminate)).
Defined.

(** X27. A type without a slash, the empty type included, and a type that
    ends in its first slash are labelled TXT. *)
Theorem type_label_fallback (type : string) :
  Forall (fun c => c <> "/"%char) (String.list_ascii_of_string type) ->
  type_label type = "TXT" /\ type_label (type +:+ "/") = "TXT".
Proof.
  intros H. unfold type_label. split.
  - by rewrite (split_without_sep _ _ H).
  - by rewrite (split_at_sep _ _ _ H).
Qed.

Lemma type_label_fallback_witness :
  Forall (fun c => c <> "/"%char) (String.list_ascii_of_string "") /\
  type_label "" = "TXT".
Proof.
  split; [constructor|].
  exact (proj1 (type_label_fallback "" ltac:(constructor))).
Defined.

(** ** The send button and the Enter key *)

(** X28. With a non-blank input, the Enter key without Shift sends the
    message whether or not a reply or an upload is pending, and no other
    key does; a click on the send button does the same as Enter when
    nothing is pending and nothing at all while something is. *)
Theorem enter_sends_even_while_pending (now_id now_ts : Z) (w : World) :
  trim (inputValue w) <> "" ->
  (exists req w',
     handleKeyPress "Enter" false now_id now_ts w = Some (req, w') /\
     requests w' = requests w ++ [sendChatMessage_request (NEXT_PUBLIC_BASE_URL w) req]) /\
  (forall key shiftKey,
     handleKeyPress key shiftKey now_id now_ts w <> None -> key = "Enter" /\ shiftKey = false) /\
  (isTyping w = false -> isUploading w = false ->
   click_send now_id now_ts w = handleKeyPress "Enter" false now_id now_ts w) /\
  (isTyping w = true \/ isUploading w = true -> click_send now_id now_ts w = None).
Proof.
  intros Hink. split; [|split; [|split]].
  - unfold handleKeyPress. simpl. rewrite (not_blank_sends _ _ _ Hink).
    by eexists _, _.
  - intros key shiftKey. unfold handleKeyPress.
    destruct (String.eqb_spec key "Enter") as [->|]; [|done].
    by destruct shiftKey.
  - intros Ht Hu. unfold click_send, send_disabled, handleKeyPress.
    apply String.eqb_neq in Hink. by rewrite Hink, Ht, Hu.
  - intros H. unfold click_send, send_disabled.
    destruct H as [-> | ->]; by rewrite ?orb_true_r.
Qed.

Lemma enter_sends_even_while_pending_witness :
  let w := mkWorld [mkMessage "1" USER "First?" 1%Z] [] "Second?" true false None ∅ []
                   None [] ∅ in
  trim (inputValue w) <> "" /\
  isTyping w = true /\
  click_send 2 2 w = None /\
  exists req w', handleKeyPress "Enter" false 2 2 w = Some (req, w').
Proof.
  intros w. split; [discriminate|]. split; [reflexivity|].
  destruct (enter_sends_even_while_pending 2 2 w) as ((req & w' & Hs & _) & _ & _ & Hc);
    [discriminate|].
  split; [apply Hc; by left|]. by exists req, w'.
Defined.
